(** * gofasta, package sam: alignment reconstruction and indel extraction

    A shallow embedding of [pkg/sam/sam.go] and [pkg/sam/indels.go].

    Conventions of the embedding.
    - Go's [int] is the 64-bit two's complement integer: a [Z] kept in
      [min_int, max_int] by [wrap], which every program addition and
      subtraction goes through.
    - [byte] is an 8-bit character ([ascii]); [[]byte] is [list byte].  The
      slices the code takes come from [Seq.Expand()], whose capacity equals
      its length, so a slice expression is bounds-checked against [length].
    - A Go function either returns or panics: [outcome].  A [(value, error)]
      result is a pair whose second component is [option string]
      ([None] for [nil]).
    - Ranging over a Go map visits every entry once, in an order the language
      leaves unspecified: [go_range] relates a map to every enumeration of
      its entries. *)

From Stdlib Require Import Ascii.
From stdpp Require Import base option list sorting gmap strings pretty.

Local Open Scope Z_scope.
Local Set Warnings "-clear-no-such-hyp".

(** ** Machine integers *)

Definition min_int : Z := - 2 ^ 63.
Definition max_int : Z := 2 ^ 63 - 1.

Definition wrap (z : Z) : Z := (z + 2 ^ 63) `mod` 2 ^ 64 - 2 ^ 63.

Definition int_add (x y : Z) : Z := wrap (x + y).
Definition int_sub (x y : Z) : Z := wrap (x - y).

Definition is_int (z : Z) : Prop := min_int ≤ z ≤ max_int.

(** ** Outcomes: return or panic *)

Inductive outcome (A : Type) : Type :=
  | Returns (a : A)
  | Panics.
Arguments Returns {A} a.
Arguments Panics {A}.

Global Instance outcome_bind : MBind outcome := λ A B k m,
  match m with
  | Returns a => k a
  | Panics => Panics
  end.

(** ** Bytes and slices *)

Abbreviation byte := ascii.

Definition byte_val (b : byte) : Z := Z.of_N (N_of_ascii b).

(** [len(s)] *)
Definition len {A} (s : list A) : Z := Z.of_nat (length s).

(** [s[lo:hi]]: panics unless [0 <= lo <= hi <= cap(s)]. *)
Definition slice {A} (s : list A) (lo hi : Z) : outcome (list A) :=
  if bool_decide (0 ≤ lo ∧ lo ≤ hi ∧ hi ≤ len s)
  then Returns (take (Z.to_nat (hi - lo)) (drop (Z.to_nat lo) s))
  else Panics.

(** [b := make([]byte, n); for i := range b { b[i] = c }]: [make] panics on
    a negative length. *)
Definition make_filled (n : Z) (c : byte) : outcome (list byte) :=
  if bool_decide (0 ≤ n) then Returns (replicate (Z.to_nat n) c) else Panics.

(** ** The alignment record (github.com/biogo/hts/sam) *)

(** [CigarOpType]: the nine operators of the SAM format, [CigarBack], and
    [lastCigar], which stands for every other value of the 4-bit field. *)
Inductive CigarOpType : Set :=
  | CigarMatch | CigarInsertion | CigarDeletion | CigarSkipped
  | CigarSoftClipped | CigarHardClipped | CigarPadded
  | CigarEqual | CigarMismatch | CigarBack | lastCigar.

Global Instance CigarOpType_eq_dec : EqDecision CigarOpType.
Proof. solve_decision. Defined.

(** [CigarOpType.String()] *)
Definition CigarOpType_String (ct : CigarOpType) : string :=
  match ct with
  | CigarMatch => "M" | CigarInsertion => "I" | CigarDeletion => "D"
  | CigarSkipped => "N" | CigarSoftClipped => "S" | CigarHardClipped => "H"
  | CigarPadded => "P" | CigarEqual => "=" | CigarMismatch => "X"
  | CigarBack => "B" | lastCigar => "?"
  end.

Record CigarOp : Set := mkCigarOp { Type_ : CigarOpType; Len : Z }.

Record Record_ : Set := mkRecord {
  Name : string;
  Pos : Z;
  Seq : list byte;      (* [Seq.Expand()] *)
  Cigar : list CigarOp;
  Flags : Z
}.

(** ** sam.go: the CIGAR operation table *)

Abbreviation cigar_fn :=
  (Z → Z → Z → list byte → outcome (Z * Z * list byte)).

Definition op_M : cigar_fn := λ query_start ref_start length seq,
  ext ← slice seq query_start (int_add query_start length);
  Returns (int_add query_start length, int_add ref_start length, ext).

Definition op_I : cigar_fn := λ query_start ref_start length seq,
  Returns (int_add query_start length, ref_start, []).

Definition op_D : cigar_fn := λ query_start ref_start length seq,
  gaps ← make_filled length "-"%char;
  Returns (query_start, int_add ref_start length, gaps).

Definition op_N : cigar_fn := λ query_start ref_start length seq,
  gaps ← make_filled length "-"%char;
  Returns (query_start, int_add ref_start length, gaps).

Definition op_S : cigar_fn := λ query_start ref_start length seq,
  Returns (int_add query_start length, ref_start, []).

Definition op_H : cigar_fn := λ query_start ref_start length seq,
  Returns (query_start, ref_start, []).

Definition op_P : cigar_fn := λ query_start ref_start length seq,
  Returns (query_start, ref_start, []).

Definition op_Eq : cigar_fn := λ query_start ref_start length seq,
  ext ← slice seq query_start (int_add query_start length);
  Returns (int_add query_start length, int_add ref_start length, ext).

Definition op_X : cigar_fn := λ query_start ref_start length seq,
  ext ← slice seq query_start (int_add query_start length);
  Returns (int_add query_start length, int_add ref_start length, ext).

Definition getCigarOperationMap : gmap string cigar_fn :=
  <["M" := op_M]> (<["I" := op_I]> (<["D" := op_D]> (<["N" := op_N]>
  (<["S" := op_S]> (<["H" := op_H]> (<["P" := op_P]> (<["=" := op_Eq]>
  (<["X" := op_X]> ∅)))))))).

(** [lambda_dict[operation](q, r, size, seq)]: a missing key yields the nil
    function, and calling it panics. *)
Definition call_op (lambda_dict : gmap string cigar_fn) (operation : string)
    : cigar_fn := λ q r size seq,
  match lambda_dict !! operation with
  | Some f => f q r size seq
  | None => Panics
  end.

(** ** sam.go: getOneLine *)

(** The body of [for _, op := range CIGAR], on the loop state
    [(newSeqArray, qstart, rstart)]. *)
Fixpoint expand_loop (lambda_dict : gmap string cigar_fn) (SEQ : list byte)
    (CIGAR : list CigarOp) (st : list byte * Z * Z)
    : outcome (list byte * Z * Z) :=
  match CIGAR with
  | [] => Returns st
  | op :: CIGAR' =>
      let '(newSeqArray, qstart, rstart) := st in
      let operation := CigarOpType_String (Type_ op) in
      let size := Len op in
      '(new_qstart, new_rstart, extension) ←
        call_op lambda_dict operation qstart rstart size SEQ;
      expand_loop lambda_dict SEQ CIGAR'
        (newSeqArray ++ extension, new_qstart, new_rstart)
  end.

Definition getOneLine (samLine : Record_) (refLen : Z)
    : outcome (list byte * option string) :=
  let lambda_dict := getCigarOperationMap in
  let POS := Pos samLine in
  if bool_decide (POS < 0) then Returns ([], Some "unmapped read"%string)
  else
    let SEQ := Seq samLine in
    let CIGAR := Cigar samLine in
    newSeqArray ← make_filled POS "*"%char;
    '(newSeqArray, _, _) ← expand_loop lambda_dict SEQ CIGAR (newSeqArray, 0, POS);
    rightpad ← make_filled (int_sub refLen (len newSeqArray)) "*"%char;
    Returns (newSeqArray ++ rightpad, None).

(** ** Go maps: iteration order *)

(** [for k, v := range m]: [kvs] is one order in which the entries of [m] can
    be visited. *)
Definition go_range `{Countable K} {V} (m : gmap K V) (kvs : list (K * V))
    : Prop :=
  kvs ≡ₚ map_to_list m.

(** ** sam.go: getSetFromSlice, getNucFromSite *)

(** [unicode.IsLetter(r)] for [r, _ := utf8.DecodeRune([]byte{e})]: a byte
    below 0x80 decodes to itself, and the letters there are A-Z and a-z; a
    byte from 0x80 on decodes to U+FFFD, which is not a letter. *)
Definition IsLetter (e : byte) : bool :=
  bool_decide (65 ≤ byte_val e ≤ 90 ∨ 97 ≤ byte_val e ≤ 122).

(** [for _, b := range s { m[b] = true }] *)
Definition site_map (s : list byte) : gmap byte bool :=
  foldl (λ (m : gmap byte bool) b, <[b := true]> m) ∅ s.

(** [for key, value := range m { if value { s_out = append(s_out, key) } }]
    along the visiting order [kvs]. *)
Definition collect_keys (kvs : list (byte * bool)) : list byte :=
  foldl (λ s_out (kv : byte * bool), if kv.2 then s_out ++ [kv.1] else s_out)
        [] kvs.

Definition getSetFromSlice (s : list byte) (s_out : list byte) : Prop :=
  ∃ kvs, go_range (site_map s) kvs ∧ s_out = collect_keys kvs.

(** The part of [getNucFromSite] after [ss := getSetFromSlice(s)]. *)
Definition count_letters (ss : list byte) : Z :=
  foldl (λ check e, if IsLetter e then int_add check 1 else check) 0 ss.

Definition max_step (st : Z * byte) (e : byte) : Z * byte :=
  let '(i, m) := st in
  (i + 1, if bool_decide (i = 0 ∨ byte_val e > byte_val m) then e else m).

(** [var m byte; for i, e := range ss { if i == 0 || e > m { m = e } }] *)
Definition max_byte (ss : list byte) : byte :=
  (foldl max_step (0, Ascii.zero) ss).2.

Definition nucFromSet (ss : list byte) : byte :=
  if bool_decide (count_letters ss > 1) then "N"%char else max_byte ss.

Definition getNucFromSite (s : list byte) (nuc : byte) : Prop :=
  ∃ ss, getSetFromSlice s ss ∧ nuc = nucFromSet ss.

(** One run of [getNucFromSite], visiting the map in the order of
    [map_to_list]. *)
Definition getNucFromSite_run (s : list byte) : byte :=
  nucFromSet (collect_keys (map_to_list (site_map s))).

(** ** sam.go: swapInNs, swapInGapsNs *)

Definition swapInNs_step (seq : list byte) (i : Z) : list byte :=
  match seq !! Z.to_nat i with
  | Some L =>
      if bool_decide (L = "*"%char) then <[Z.to_nat i := "N"%char]> seq else seq
  | None => seq
  end.

Definition swapInNs (seq : list byte) : list byte :=
  foldl swapInNs_step seq (seqZ 0 (len seq)).

(** First loop of [swapInGapsNs], on
    [(firstLetter, firstLetterIndx, lastLetterIndx)]. *)
Definition letter_step (st : bool * Z * Z) (iL : Z * byte) : bool * Z * Z :=
  let '(firstLetter, firstLetterIndx, lastLetterIndx) := st in
  let '(i, L) := iL in
  if IsLetter L
  then (false, if firstLetter then i else firstLetterIndx, i)
  else (firstLetter, firstLetterIndx, lastLetterIndx).

Definition letter_scan (seq : list byte) : bool * Z * Z :=
  foldl letter_step (true, 0, 0) (zip (seqZ 0 (len seq)) seq).

Definition put_if_star (L : byte) (i : Z) (c : byte) (seq : list byte)
    : list byte :=
  if bool_decide (L = "*"%char) then <[Z.to_nat i := c]> seq else seq.

(** Second loop of [swapInGapsNs]. *)
Definition swapInGapsNs_step (firstLetterIndx lastLetterIndx : Z)
    (seq : list byte) (i : Z) : list byte :=
  match seq !! Z.to_nat i with
  | Some L =>
      let seq1 :=
        if bool_decide (i < firstLetterIndx)
        then put_if_star L i "-"%char seq else seq in
      let seq2 :=
        if bool_decide (i > firstLetterIndx ∧ i < lastLetterIndx)
        then put_if_star L i "N"%char seq1 else seq1 in
      if bool_decide (i > lastLetterIndx)
      then put_if_star L i "-"%char seq2 else seq2
  | None => seq
  end.

Definition swapInGapsNs (seq : list byte) : list byte :=
  let '(_, firstLetterIndx, lastLetterIndx) := letter_scan seq in
  foldl (swapInGapsNs_step firstLetterIndx lastLetterIndx) seq
        (seqZ 0 (len seq)).

(** ** sam.go: groupSamRecords *)

(** The loop state, with the blocks sent on [chnl] so far. *)
Record group_state : Set := mkGroup {
  samLineGroup : list Record_;
  first : bool;
  previous : string;
  chnl : list (list Record_)
}.

Definition group_step (st : group_state) (rec : Record_) : group_state :=
  if first st then
    mkGroup (samLineGroup st ++ [rec]) false (Name rec) (chnl st)
  else if bool_decide (Name rec ≠ previous st) then
    mkGroup ([] ++ [rec]) (first st) (Name rec) (chnl st ++ [samLineGroup st])
  else
    mkGroup (samLineGroup st ++ [rec]) (first st) (Name rec) (chnl st).

(** The blocks sent on [chnl] for the records [s.Read()] yields before
    [io.EOF]. *)
Definition groupSamRecords (recs : list Record_) : list (list Record_) :=
  let st := foldl group_step (mkGroup [] true "" []) recs in
  chnl st ++ [samLineGroup st].

(** ** indels.go: occurrences and channel sends *)

Record insOccurrence : Set := mkIns {
  ins_query : string; ins_start : Z; ins_seq : string
}.

Record delOccurrence : Set := mkDel {
  del_query : string; del_start : Z; del_length : Z
}.

(** What a worker sends, in order, on [cErr], [cIns] and [cDel].  Every send
    is taken to complete: the orchestrator receives on [cErr] and the two
    aggregators on [cIns] and [cDel]. *)
Inductive send : Set :=
  | to_cErr (e : string)
  | to_cIns (ins : insOccurrence)
  | to_cDel (del : delOccurrence).

(** A computation that sends and then returns or panics. *)
Definition trace (A : Type) : Type := list send * outcome A.

Global Instance trace_bind : MBind trace := λ A B k m,
  match m.2 with
  | Returns a => (m.1 ++ (k a).1, (k a).2)
  | Panics => (m.1, Panics)
  end.

Definition emit (s : send) : trace unit := ([s], Returns ()).
Definition run {A} (o : outcome A) : trace A := ([], o).
Definition skip : trace unit := ([], Returns ()).

(** Modelled from the spec: [getCigarOperationMapNoInsertions], which
    [getIndels] calls, is not among the sources.  Section 4.6 has the
    extractor maintain the query and reference cursors exactly as the
    operator interpreter of section 4.1 does, over the same nine kinds, so
    the table is that of [getCigarOperationMap]. *)
Definition getCigarOperationMapNoInsertions : gmap string cigar_fn :=
  getCigarOperationMap.

(** The body of [for _, op := range CIGAR] in [getIndels]. *)
Fixpoint indel_loop (lambda_dict : gmap string cigar_fn) (QNAME : string)
    (SEQ : list byte) (CIGAR : list CigarOp) (qstart rstart : Z)
    : trace unit :=
  match CIGAR with
  | [] => skip
  | op :: CIGAR' =>
      let operation := CigarOpType_String (Type_ op) in
      let size := Len op in
      _ ← (if bool_decide (operation = "I"%string) then
             b ← run (slice SEQ qstart (int_add qstart size));
             emit (to_cIns (mkIns QNAME rstart (String.string_of_list_ascii b)))
           else skip);
      _ ← (if bool_decide (operation = "D"%string) then
             emit (to_cDel (mkDel QNAME rstart size))
           else skip);
      '(new_qstart, new_rstart, _) ←
        run (call_op lambda_dict operation qstart rstart size SEQ);
      indel_loop lambda_dict QNAME SEQ CIGAR' new_qstart new_rstart
  end.

(** The body of [for samLine := range(cSR)]. *)
Definition getIndels_record (samLine : Record_) : trace unit :=
  let lambda_dict := getCigarOperationMapNoInsertions in
  let QNAME := Name samLine in
  let POS := Pos samLine in
  _ ← (if bool_decide (POS < 0) then emit (to_cErr "unmapped read") else skip);
  let SEQ := Seq samLine in
  let CIGAR := Cigar samLine in
  indel_loop lambda_dict QNAME SEQ CIGAR 0 POS.

(** [getIndels] on the records this worker receives from [cSR]. *)
Fixpoint getIndels (cSR : list Record_) : trace unit :=
  match cSR with
  | [] => skip
  | samLine :: cSR' => _ ← getIndels_record samLine; getIndels cSR'
  end.

(** [getSamRecords]: the records sent on [chnl] for the records read; a
    record whose flag has the third bit set (value 4, unmapped) is skipped. *)
Definition getSamRecords (recs : list Record_) : list Record_ :=
  foldl (λ chnl rec,
           if bool_decide (Z.land (Z.shiftr (Flags rec) 2) 1 = 1) then chnl
           else chnl ++ [rec])
        [] recs.

(** ** indels.go: writeInsMap, writeDelMap *)

Definition tab : string := String "009"%char EmptyString.
Definition newline : string := String "010"%char EmptyString.

(** [strconv.Itoa] *)
Definition Itoa (z : Z) : string := pretty z.

(** [strings.Join] *)
Fixpoint Join (elems : list string) (sep : string) : string :=
  match elems with
  | [] => ""
  | [e] => e
  | e :: elems' => e +:+ sep +:+ Join elems' sep
  end.

(** [sort.Ints] *)
Definition sort_Ints (keys : list Z) : list Z := merge_sort Z.le keys.

(** The two writers differ in the type of the secondary key, in how it is
    printed and in the header; [os.Create] and [WriteString] are taken to
    succeed, and the result is the list of strings written, in order. *)
Section writeMap.
Context `{Countable K}.
Variable header : string.
Variable show : K → string.

(** [m[k][v]]: a missing key reads as the zero value. *)
Definition at2 (m : gmap Z (gmap K (list string))) (k : Z) (v : K)
    : list string :=
  default [] (default ∅ (m !! k) !! v).

(** [for v := range(m[k]) { ... }] along the visiting order [vs]. *)
Definition write_rows (m : gmap Z (gmap K (list string))) (threshold : Z)
    (k : Z) (vs : list K) : list string :=
  foldl (λ written v,
           if bool_decide (len (at2 m k v) < threshold) then written
           else
             let c1 := Itoa (int_add k 1) in
             let c2 := show v in
             let c3 := Join (at2 m k v) "|" in
             written ++ [c1 +:+ tab +:+ c2 +:+ tab +:+ c3 +:+ newline])
        [] vs.

Definition writeMap (m : gmap Z (gmap K (list string))) (threshold : Z)
    (written : list string) : Prop :=
  ∃ (kvs : list (Z * gmap K (list string))) (orders : list (list K)),
    go_range m kvs ∧
    let keys := sort_Ints (kvs.*1) in
    Forall2 (λ k vs, ∃ ents, go_range (default ∅ (m !! k)) ents ∧ vs = ents.*1)
            keys orders ∧
    written = header :: concat (zip_with (write_rows m threshold) keys orders).

(** A row of the table, [(primary key, secondary key, samples)], and the
    line it is written as. *)
Definition row_line (row : Z * K * list string) : string :=
  Itoa (row.1.1 + 1) +:+ tab +:+ show row.1.2 +:+ tab
    +:+ Join row.2 "|" +:+ newline.

(** The rows the report has to list: the entries of the map whose sample
    list has at least [threshold] names. *)
Definition listed (m : gmap Z (gmap K (list string))) (threshold : Z)
    (row : Z * K * list string) : Prop :=
  (∃ inner, m !! row.1.1 = Some inner ∧ inner !! row.1.2 = Some row.2) ∧
  threshold ≤ len row.2.

(** The rows written for primary key [k] along the visiting order [vs]. *)
Definition rows_of (m : gmap Z (gmap K (list string))) (threshold : Z)
    (k : Z) (vs : list K) : list (Z * K * list string) :=
  (λ v, (k, v, at2 m k v)) <$> filter (λ v, threshold ≤ len (at2 m k v)) vs.

(** One run of the writer, visiting every map in the order of
    [map_to_list]. *)
Definition writeMap_run (m : gmap Z (gmap K (list string))) (threshold : Z)
    : list string :=
  let keys := sort_Ints ((map_to_list m).*1) in
  header :: concat (map (λ k, write_rows m threshold k
                                ((map_to_list (default ∅ (m !! k))).*1)) keys).
End writeMap.

Definition ins_header : string :=
  "ref_start" +:+ tab +:+ "insertion" +:+ tab +:+ "samples" +:+ newline.

Definition del_header : string :=
  "ref_start" +:+ tab +:+ "length" +:+ tab +:+ "samples" +:+ newline.

Definition writeInsMap
    : gmap Z (gmap string (list string)) → Z → list string → Prop :=
  writeMap ins_header (λ v, v).

Definition writeDelMap
    : gmap Z (gmap Z (list string)) → Z → list string → Prop :=
  writeMap del_header Itoa.

Definition writeInsMap_run
    : gmap Z (gmap string (list string)) → Z → list string :=
  writeMap_run ins_header (λ v, v).

Definition writeDelMap_run
    : gmap Z (gmap Z (list string)) → Z → list string :=
  writeMap_run del_header Itoa.

(** ** sam.go: checkAndGetFlattenedSeq, getSeqFromBlock *)

(** [for i, _ := range block { site[i] = block[i][j] }]: every entry of
    [site] is written, so the site is the column [j] of the block; a row
    without index [j] makes the index expression panic. *)
Fixpoint site_of (block : list (list byte)) (j : Z) : outcome (list byte) :=
  match block with
  | [] => Returns []
  | row :: block' =>
      match row !! Z.to_nat j with
      | Some b => site ← site_of block' j; Returns (b :: site)
      | None => Panics
      end
  end.

(** The loop [for j, _ := range block[0]], over the column indices [js];
    [seq[j] = nuc] fills the result from left to right. *)
Fixpoint flatten_loop (block : list (list byte)) (js : list Z)
    (o : outcome (list byte)) : Prop :=
  match js with
  | [] => o = Returns []
  | j :: js' =>
      match site_of block j with
      | Returns site =>
          ∃ nuc o', getNucFromSite site nuc ∧ flatten_loop block js' o' ∧
                    o = (seq ← o'; Returns (nuc :: seq))
      | Panics => o = Panics
      end
  end.

(** [block[0]] panics on an empty block. *)
Definition checkAndGetFlattenedSeq (block : list (list byte))
    (o : outcome (list byte)) : Prop :=
  match block with
  | [] => o = Panics
  | row0 :: _ => flatten_loop block (seqZ 0 (len row0)) o
  end.

(** One run of [checkAndGetFlattenedSeq], every map visited in the order of
    [map_to_list]. *)
Fixpoint flatten_loop_run (block : list (list byte)) (js : list Z)
    : outcome (list byte) :=
  match js with
  | [] => Returns []
  | j :: js' =>
      site ← site_of block j;
      seq ← flatten_loop_run block js';
      Returns (getNucFromSite_run site :: seq)
  end.

Definition checkAndGetFlattenedSeq_run (block : list (list byte))
    : outcome (list byte) :=
  match block with
  | [] => Panics
  | row0 :: _ => flatten_loop_run block (seqZ 0 (len row0))
  end.

(** [block := make([][]byte, n); for i := range block
    { block[i] = make([]byte, refLen) }] *)
Fixpoint alloc_block (n : nat) (refLen : Z) : outcome (list (list byte)) :=
  match n with
  | O => Returns []
  | S n' =>
      row ← make_filled refLen Ascii.zero;
      block ← alloc_block n' refLen;
      Returns (row :: block)
  end.

(** [for i, line := range records], from index [i]: the rows of the block, or
    the error of the first record [getOneLine] rejects. *)
Fixpoint expand_lines (refLen : Z) (i : nat) (records : list Record_)
    (block : list (list byte)) : outcome (list (list byte) + string) :=
  match records with
  | [] => Returns (inl block)
  | line :: records' =>
      '(temp, err) ← getOneLine line refLen;
      match err with
      | Some e => Returns (inr e)
      | None => expand_lines refLen (S i) records' (<[i := temp]> block)
      end
  end.

Definition getSeqFromBlock (records : list Record_) (refLen : Z)
    (o : outcome (list byte * option string)) : Prop :=
  match (block ← alloc_block (length records) refLen;
         expand_lines refLen 0 records block) with
  | Returns (inl block) =>
      if bool_decide (len block > 1) then
        ∃ o', checkAndGetFlattenedSeq block o' ∧
              o = (seq ← o'; Returns (seq, None))
      else
        match block !! 0%nat with
        | Some seq => o = Returns (seq, None)
        | None => o = Panics
        end
  | Returns (inr e) => o = Returns ([], Some e)
  | Panics => o = Panics
  end.

Definition getSeqFromBlock_run (records : list Record_) (refLen : Z)
    : outcome (list byte * option string) :=
  r ← (block ← alloc_block (length records) refLen;
       expand_lines refLen 0 records block);
  match r with
  | inl block =>
      if bool_decide (len block > 1) then
        seq ← checkAndGetFlattenedSeq_run block; Returns (seq, None)
      else
        match block !! 0%nat with
        | Some seq => Returns (seq, None)
        | None => Panics
        end
  | inr e => Returns ([], Some e)
  end.

(** ** indels.go: populateInsMap, populateDelMap *)

(** The two aggregators differ in the occurrence they read and in the type
    of the secondary key; the argument is the list of the occurrences
    received on the channel, in the order of arrival. *)
Section populateMap.
Context `{Countable K} {Occ : Type}.
Variable query : Occ → string.
Variable start : Occ → Z.
Variable key : Occ → K.

Definition populate_step (m : gmap Z (gmap K (list string))) (occ : Occ)
    : gmap Z (gmap K (list string)) :=
  let q := query occ in
  let strt := start occ in
  let sq := key occ in
  match m !! strt with
  | Some inner =>
      match inner !! sq with
      | Some names => <[strt := <[sq := names ++ [q]]> inner]> m
      | None => <[strt := <[sq := [q]]> inner]> m
      end
  | None => <[strt := <[sq := [q]]> ∅]> m
  end.

Definition populateMap (occs : list Occ) : gmap Z (gmap K (list string)) :=
  foldl populate_step ∅ occs.
End populateMap.

Definition populateInsMap
    : list insOccurrence → gmap Z (gmap string (list string)) :=
  populateMap ins_query ins_start ins_seq.

Definition populateDelMap
    : list delOccurrence → gmap Z (gmap Z (list string)) :=
  populateMap del_query del_start del_length.

(** ** What the claims are stated with *)

Definition bytes (s : string) : list byte := String.list_ascii_of_string s.

(** [seq[q:q+n]] when it is in range. *)
Definition sub {A} (s : list A) (q n : Z) : list A :=
  take (Z.to_nat n) (drop (Z.to_nat q) s).

(** The nine kinds of the table. *)
Definition recognized (ty : CigarOpType) : bool :=
  match ty with
  | CigarBack | lastCigar => false
  | _ => true
  end.

(** The kinds that advance the query cursor, and those that advance the
    reference cursor. *)
Definition consumes_query (ty : CigarOpType) : bool :=
  match ty with
  | CigarMatch | CigarInsertion | CigarSoftClipped | CigarEqual
  | CigarMismatch => true
  | _ => false
  end.

Definition consumes_ref (ty : CigarOpType) : bool :=
  match ty with
  | CigarMatch | CigarDeletion | CigarSkipped | CigarEqual
  | CigarMismatch => true
  | _ => false
  end.

Definition next_q (q : Z) (op : CigarOp) : Z :=
  if consumes_query (Type_ op) then q + Len op else q.

Definition next_r (r : Z) (op : CigarOp) : Z :=
  if consumes_ref (Type_ op) then r + Len op else r.

(** What one operator emits at query cursor [q]. *)
Definition emission (S : list byte) (q : Z) (op : CigarOp) : list byte :=
  match Type_ op with
  | CigarMatch | CigarEqual | CigarMismatch => sub S q (Len op)
  | CigarDeletion | CigarSkipped => replicate (Z.to_nat (Len op)) "-"%char
  | _ => []
  end.

(** The emissions of an operator sequence, in order, from query cursor [q]. *)
Fixpoint emissions (S : list byte) (q : Z) (ops : list CigarOp) : list byte :=
  match ops with
  | [] => []
  | op :: ops' => emission S q op ++ emissions S (next_q q op) ops'
  end.

(** An operator sequence that fits the query sequence from cursor [q]: every
    kind is one of the nine, no length is negative, and the query cursor
    never passes the end of [S]. *)
Fixpoint cigar_ok (S : list byte) (q : Z) (ops : list CigarOp) : bool :=
  match ops with
  | [] => true
  | op :: ops' =>
      recognized (Type_ op) && bool_decide (0 ≤ Len op)
      && (if consumes_query (Type_ op) then bool_decide (q + Len op ≤ len S)
          else true)
      && cigar_ok S (next_q q op) ops'
  end.

(** The number of reference positions an operator sequence covers. *)
Fixpoint ref_span (ops : list CigarOp) : Z :=
  match ops with
  | [] => 0
  | op :: ops' => (if consumes_ref (Type_ op) then Len op else 0) + ref_span ops'
  end.

(** The occurrences of an operator sequence as section 4.6 words them: one
    insertion occurrence per Insertion operator and one deletion occurrence
    per Deletion operator, at the cursors the consumption rules give. *)
Fixpoint occurrences (QNAME : string) (S : list byte) (ops : list CigarOp)
    (q r : Z) : list send :=
  match ops with
  | [] => []
  | op :: ops' =>
      match Type_ op with
      | CigarInsertion =>
          [to_cIns (mkIns QNAME r (String.string_of_list_ascii (sub S q (Len op))))]
      | CigarDeletion => [to_cDel (mkDel QNAME r (Len op))]
      | _ => []
      end ++ occurrences QNAME S ops' (next_q q op) (next_r r op)
  end.

(** A block of one query: not empty, every record under the same name. *)
Definition one_query (block : list Record_) : Prop :=
  block ≠ [] ∧ ∃ name, Forall (λ rec, Name rec = name) block.

(** No record of [b1] has the name of a record of [b2]. *)
Definition other_query (b1 b2 : list Record_) : Prop :=
  ∀ r1 r2, r1 ∈ b1 → r2 ∈ b2 → Name r1 ≠ Name r2.

(** Every block ends where the name changes. *)
Fixpoint name_changes (blocks : list (list Record_)) : Prop :=
  match blocks with
  | b1 :: rest =>
      match rest with
      | b2 :: _ => other_query b1 b2
      | [] => True
      end ∧ name_changes rest
  | [] => True
  end.

(** What holds of the loop state once a record has been read. *)
Definition group_inv (st : group_state) : Prop :=
  first st = false ∧
  samLineGroup st ≠ [] ∧
  Forall (λ rec, Name rec = previous st) (samLineGroup st) ∧
  Forall one_query (chnl st) ∧
  name_changes (chnl st) ∧
  (∀ b, last (chnl st) = Some b → other_query b (samLineGroup st)).

(** A loop that rewrites position [i] from the byte it reads there. *)
Definition update_step (g : Z → byte → byte) (seq : list byte) (i : Z)
    : list byte :=
  match seq !! Z.to_nat i with
  | Some L => <[Z.to_nat i := g i L]> seq
  | None => seq
  end.

(** What the two passes leave at position [i] when they read [L] there. *)
Definition swapInNs_byte (i : Z) (L : byte) : byte :=
  if bool_decide (L = "*"%char) then "N"%char else L.

Definition swapInGapsNs_byte (firstLetterIndx lastLetterIndx i : Z) (L : byte)
    : byte :=
  if bool_decide (L = "*"%char) then
    if bool_decide (i < firstLetterIndx) then "-"%char
    else if bool_decide (i > firstLetterIndx ∧ i < lastLetterIndx) then "N"%char
    else if bool_decide (i > lastLetterIndx) then "-"%char
    else L
  else L.

(** More than one distinct letter in a column. *)
Definition ambiguous (s : list byte) : Prop :=
  ∃ a b : byte, a ∈ s ∧ b ∈ s ∧ a ≠ b ∧ IsLetter a ∧ IsLetter b.

(** [m] is a byte of [s] of the greatest value. *)
Definition is_max_of (s : list byte) (m : byte) : Prop :=
  m ∈ s ∧ ∀ e : byte, e ∈ s → byte_val e ≤ byte_val m.

(** The column [j] of a block: the bytes at index [j] of the rows that have
    one. *)
Definition col (j : nat) (block : list (list byte)) : list byte :=
  omap (λ row : list byte, row !! j) block.

(** A record that [getOneLine] can expand into [refLen] bytes. *)
Definition fits_reference (refLen : Z) (rec : Record_) : Prop :=
  0 ≤ Pos rec ∧
  cigar_ok (Seq rec) 0 (Cigar rec) = true ∧
  len (Seq rec) ≤ max_int ∧
  Pos rec + ref_span (Cigar rec) ≤ refLen.

(** The operators left when hard clips and padding are removed. *)
Definition drop_HP (ops : list CigarOp) : list CigarOp :=
  filter (λ op, Type_ op ≠ CigarHardClipped ∧ Type_ op ≠ CigarPadded) ops.

(** The occurrences among the sends of a worker. *)
Definition insertions_sent (sends : list send) : list insOccurrence :=
  omap (λ s, match s with to_cIns ins => Some ins | _ => None end) sends.

Definition deletions_sent (sends : list send) : list delOccurrence :=
  omap (λ s, match s with to_cDel del => Some del | _ => None end) sends.

(** The operators of a kind in an operator sequence. *)
Definition ops_of (ty : CigarOpType) (ops : list CigarOp) : list CigarOp :=
  filter (λ op, Type_ op = ty) ops.

(** What the aggregators are described with. *)
Section aggregated.
Context `{Countable K} {Occ : Type}.
Variable query : Occ → string.
Variable start : Occ → Z.
Variable key : Occ → K.

(** The entry of a map at [(k, v)], if it has one. *)
Definition entry (m : gmap Z (gmap K (list string))) (k : Z) (v : K)
    : option (list string) :=
  inner ← m !! k; inner !! v.

(** The queries of the occurrences at [(k, v)], in the order of arrival. *)
Definition names_at (occs : list Occ) (k : Z) (v : K) : list string :=
  query <$> filter (λ occ, start occ = k ∧ key occ = v) occs.

(** The number of names a map holds, over all its entries. *)
Definition count_names (m : gmap Z (gmap K (list string))) : nat :=
  sum_list_with
    (λ kv : Z * gmap K (list string),
       sum_list_with (λ vn : K * list string, length vn.2) (map_to_list kv.2))
    (map_to_list m).
End aggregated.

(** A stream grouped by query name: between two records of one name there
    is no record of another. *)
Definition grouped (recs : list Record_) : Prop :=
  ∀ l1 r1 l2 r2 l3 r3 l4,
    recs = l1 ++ r1 :: l2 ++ r2 :: l3 ++ r3 :: l4 →
    Name r1 = Name r3 → Name r2 = Name r1.

(** * Properties *)

(** ** Machine integers *)

Lemma wrap_id z : is_int z → wrap z = z.
Proof.
  unfold is_int, min_int, max_int, wrap. intros Hz.
  rewrite Z.mod_small; lia.
Qed.

Lemma int_add_exact x y : is_int (x + y) → int_add x y = x + y.
Proof. apply wrap_id. Qed.

Lemma int_sub_exact x y : is_int (x - y) → int_sub x y = x - y.
Proof. apply wrap_id. Qed.

Lemma slice_in_range {A} (s : list A) lo hi :
  0 ≤ lo → lo ≤ hi → hi ≤ len s → slice s lo hi = Returns (sub s lo (hi - lo)).
Proof.
  intros. unfold slice. rewrite bool_decide_eq_true_2; [done | lia].
Qed.

Lemma make_filled_nonneg n c :
  0 ≤ n → make_filled n c = Returns (replicate (Z.to_nat n) c).
Proof. intros. unfold make_filled. by rewrite bool_decide_eq_true_2. Qed.

(** ** The operation table *)

Lemma lookup_M : getCigarOperationMap !! "M"%string = Some op_M.
Proof. reflexivity. Qed.
Lemma lookup_I : getCigarOperationMap !! "I"%string = Some op_I.
Proof. reflexivity. Qed.
Lemma lookup_D : getCigarOperationMap !! "D"%string = Some op_D.
Proof. reflexivity. Qed.
Lemma lookup_N : getCigarOperationMap !! "N"%string = Some op_N.
Proof. reflexivity. Qed.
Lemma lookup_S : getCigarOperationMap !! "S"%string = Some op_S.
Proof. reflexivity. Qed.
Lemma lookup_H : getCigarOperationMap !! "H"%string = Some op_H.
Proof. reflexivity. Qed.
Lemma lookup_P : getCigarOperationMap !! "P"%string = Some op_P.
Proof. reflexivity. Qed.
Lemma lookup_Eq : getCigarOperationMap !! "="%string = Some op_Eq.
Proof. reflexivity. Qed.
Lemma lookup_X : getCigarOperationMap !! "X"%string = Some op_X.
Proof. reflexivity. Qed.
Lemma lookup_B : getCigarOperationMap !! "B"%string = None.
Proof. reflexivity. Qed.
Lemma lookup_other : getCigarOperationMap !! "?"%string = None.
Proof. reflexivity. Qed.

Lemma op_M_in_range q r n (S : list byte) :
  0 ≤ q → 0 ≤ n → q + n ≤ len S → is_int (q + n) → is_int (r + n) →
  op_M q r n S = Returns (q + n, r + n, sub S q n).
Proof.
  intros. unfold op_M. rewrite !int_add_exact by done.
  rewrite slice_in_range by lia. simpl. do 3 f_equal. lia.
Qed.

Lemma op_D_nonneg q r n (S : list byte) :
  0 ≤ n → is_int (r + n) →
  op_D q r n S = Returns (q, r + n, replicate (Z.to_nat n) "-"%char).
Proof.
  intros. unfold op_D. rewrite make_filled_nonneg, int_add_exact by done.
  done.
Qed.

(** C1. One application of a CIGAR operator, for a non-negative length [n]
    and cursor sums that an [int] holds: M, = and X return [(q+n, r+n)] and
    emit [S[q..q+n)] (the slice has to lie within [S]); I and S return
    [(q+n, r)] and emit nothing; D and N return [(q, r+n)] and emit [n]
    bytes '-'; H and P return [(q, r)] and emit nothing. *)
Theorem cigar_operation_rules (q r n : Z) (S : list byte) :
  0 ≤ n → is_int (q + n) → is_int (r + n) →
  (∀ k : string, k ∈ ["M"; "="; "X"]%string → 0 ≤ q → q + n ≤ len S →
     call_op getCigarOperationMap k q r n S
     = Returns (q + n, r + n, sub S q n)) ∧
  (∀ k : string, k ∈ ["I"; "S"]%string →
     call_op getCigarOperationMap k q r n S = Returns (q + n, r, [])) ∧
  (∀ k : string, k ∈ ["D"; "N"]%string →
     call_op getCigarOperationMap k q r n S
     = Returns (q, r + n, replicate (Z.to_nat n) "-"%char)) ∧
  (∀ k : string, k ∈ ["H"; "P"]%string →
     call_op getCigarOperationMap k q r n S = Returns (q, r, [])).
Proof.
  intros Hn Hq Hr. unfold call_op. repeat split; intros k Hk.
  - intros Hq0 HqS. set_unfold in Hk.
    destruct Hk as [->|[->|[->|[]]]].
    + rewrite lookup_M. by apply op_M_in_range.
    + rewrite lookup_Eq. by apply op_M_in_range.
    + rewrite lookup_X. by apply op_M_in_range.
  - set_unfold in Hk. destruct Hk as [->|[->|[]]].
    + rewrite lookup_I. unfold op_I. by rewrite int_add_exact.
    + rewrite lookup_S. unfold op_S. by rewrite int_add_exact.
  - set_unfold in Hk. destruct Hk as [->|[->|[]]].
    + rewrite lookup_D. by apply op_D_nonneg.
    + rewrite lookup_N. by apply op_D_nonneg.
  - set_unfold in Hk. destruct Hk as [->|[->|[]]].
    + by rewrite lookup_H.
    + by rewrite lookup_P.
Qed.

Lemma cigar_operation_rules_witness :
  call_op getCigarOperationMap "M" 1 10 2 (bytes "ACGT")
    = Returns (3, 12, bytes "CG") ∧
  call_op getCigarOperationMap "I" 1 10 2 (bytes "ACGT")
    = Returns (3, 10, []) ∧
  call_op getCigarOperationMap "D" 1 10 2 (bytes "ACGT")
    = Returns (1, 12, bytes "--") ∧
  call_op getCigarOperationMap "H" 1 10 2 (bytes "ACGT")
    = Returns (1, 10, []).
Proof.
  assert (H0 : 0 ≤ 2) by lia.
  assert (H1 : is_int (1 + 2)) by (unfold is_int, min_int, max_int; lia).
  assert (H2 : is_int (10 + 2)) by (unfold is_int, min_int, max_int; lia).
  destruct (cigar_operation_rules 1 10 2 (bytes "ACGT") H0 H1 H2)
    as (HM & HI & HD & HH).
  split; [|split; [|split]].
  - apply (HM "M"%string); [set_solver | lia | vm_compute; discriminate].
  - apply (HI "I"%string). set_solver.
  - apply (HD "D"%string). set_solver.
  - apply (HH "H"%string). set_solver.
Defined.

(** ** The record expander *)

Lemma length_sub {A} (S : list A) q n :
  0 ≤ q → 0 ≤ n → q + n ≤ len S → len (sub S q n) = n.
Proof.
  unfold sub, len. intros. rewrite length_take, length_drop. lia.
Qed.

Lemma ref_span_nonneg (S : list byte) q ops : cigar_ok S q ops = true → 0 ≤ ref_span ops.
Proof.
  revert q. induction ops as [|op ops IH]; intros q Hok; simpl in *; [lia|].
  apply andb_prop in Hok as [Hok Hrest].
  apply andb_prop in Hok as [Hok _].
  apply andb_prop in Hok as [_ Hlen].
  apply bool_decide_eq_true_1 in Hlen. specialize (IH _ Hrest).
  destruct (consumes_ref _); lia.
Qed.

(** One table call on a recognized operator that fits. *)
Lemma call_op_fits (S : list byte) (q r : Z) (op : CigarOp) :
  recognized (Type_ op) = true → 0 ≤ Len op →
  (consumes_query (Type_ op) = true → 0 ≤ q ∧ q + Len op ≤ len S) →
  len S ≤ max_int → 0 ≤ r →
  (consumes_ref (Type_ op) = true → r + Len op ≤ max_int) →
  call_op getCigarOperationMap (CigarOpType_String (Type_ op)) q r (Len op) S
  = Returns (next_q q op, next_r r op, emission S q op).
Proof.
  intros Hrec Hn Hq HS Hr0 Hr.
  assert (Hri : consumes_ref (Type_ op) = true → is_int (r + Len op)).
  { intros Hc. specialize (Hr Hc). unfold is_int, min_int, max_int in *. lia. }
  assert (Hqi : consumes_query (Type_ op) = true → is_int (q + Len op)).
  { intros Hc. destruct (Hq Hc). unfold is_int, min_int, max_int in *. lia. }
  unfold call_op, next_q, next_r, emission.
  destruct op as [ty n]; simpl in *.
  destruct ty; simpl in *; try discriminate.
  - rewrite lookup_M. destruct (Hq eq_refl). apply op_M_in_range; auto.
  - rewrite lookup_I. unfold op_I. by rewrite int_add_exact by auto.
  - rewrite lookup_D. apply op_D_nonneg; auto.
  - rewrite lookup_N. apply op_D_nonneg; auto.
  - rewrite lookup_S. unfold op_S. by rewrite int_add_exact by auto.
  - by rewrite lookup_H.
  - by rewrite lookup_P.
  - rewrite lookup_Eq. destruct (Hq eq_refl). apply op_M_in_range; auto.
  - rewrite lookup_X. destruct (Hq eq_refl). apply op_M_in_range; auto.
Qed.

Lemma length_emission (S : list byte) q op :
  0 ≤ Len op → (consumes_query (Type_ op) = true → 0 ≤ q ∧ q + Len op ≤ len S) →
  len (emission S q op) = if consumes_ref (Type_ op) then Len op else 0.
Proof.
  intros Hn Hq. unfold emission. destruct op as [ty n]; simpl in *.
  destruct ty; simpl in *; try done;
    try (apply length_sub; try done; by apply Hq);
    unfold len; rewrite length_replicate; lia.
Qed.

Ltac split_cigar_ok H :=
  let Hrec := fresh "Hrec" in let Hlen := fresh "Hlen" in
  let Hfit := fresh "Hfit" in let Hrest := fresh "Hrest" in
  simpl in H;
  apply andb_prop in H as [H Hrest];
  apply andb_prop in H as [H Hfit];
  apply andb_prop in H as [Hrec Hlen];
  apply bool_decide_eq_true_1 in Hlen.

Lemma cigar_ok_fit (S : list byte) q op :
  0 ≤ q → 0 ≤ Len op →
  (if consumes_query (Type_ op) then bool_decide (q + Len op ≤ len S) else true) = true →
  (consumes_query (Type_ op) = true → 0 ≤ q ∧ q + Len op ≤ len S) ∧ 0 ≤ next_q q op.
Proof.
  intros Hq Hn Hfit. unfold next_q. destruct (consumes_query _).
  - apply bool_decide_eq_true_1 in Hfit. split; [done | lia].
  - split; [done | lia].
Qed.

Lemma expand_loop_fits (S : list byte) (ops : list CigarOp) :
  len S ≤ max_int →
  ∀ (arr : list byte) (q r : Z),
    0 ≤ q → 0 ≤ r → cigar_ok S q ops = true → r + ref_span ops ≤ max_int →
    ∃ q', expand_loop getCigarOperationMap S ops (arr, q, r)
          = Returns (arr ++ emissions S q ops, q', r + ref_span ops).
Proof.
  intros HS. induction ops as [|op ops IH]; intros arr q r Hq Hr Hok Hspan.
  - exists q. simpl. by rewrite app_nil_r, Z.add_0_r.
  - split_cigar_ok Hok.
    pose proof (ref_span_nonneg _ _ _ Hrest) as Hnn.
    destruct (cigar_ok_fit S q op Hq Hlen Hfit) as [Hfit' Hq'].
    simpl in Hspan.
    assert (consumes_ref (Type_ op) = true → r + Len op ≤ max_int)
      by (intros Hc; rewrite Hc in Hspan; lia).
    simpl. rewrite (call_op_fits S q r op) by done. simpl.
    destruct (IH (arr ++ emission S q op) (next_q q op) (next_r r op))
      as [q' Heq]; try done.
    + unfold next_r. destruct (consumes_ref _); lia.
    + unfold next_r. destruct (consumes_ref _); lia.
    + exists q'. rewrite Heq. rewrite <- app_assoc.
      replace (next_r r op + ref_span ops)
        with (r + ((if consumes_ref (Type_ op) then Len op else 0) + ref_span ops));
        [done|].
      unfold next_r. destruct (consumes_ref _); lia.
Qed.

Lemma length_emissions (S : list byte) ops :
  ∀ q, 0 ≤ q → cigar_ok S q ops = true → len (emissions S q ops) = ref_span ops.
Proof.
  induction ops as [|op ops IH]; intros q Hq Hok; [done|].
  split_cigar_ok Hok.
  destruct (cigar_ok_fit S q op Hq Hlen Hfit) as [Hfit' Hq'].
  simpl. unfold len in *. rewrite length_app, Nat2Z.inj_add.
  rewrite (IH _ Hq' Hrest).
  pose proof (length_emission S q op Hlen Hfit') as He. unfold len in He.
  by rewrite He.
Qed.

(** C2, as amended.  For a record with a non-negative [Pos] whose operators
    fit its query sequence, and a reference length that leaves room for the
    alignment, [getOneLine] returns without error a sequence of exactly
    [refLen] bytes: [Pos] bytes '*', the emissions of the operators in order,
    and '*' up to [refLen]. *)
Theorem getOneLine_fits (samLine : Record_) (refLen : Z) :
  0 ≤ Pos samLine →
  cigar_ok (Seq samLine) 0 (Cigar samLine) = true →
  len (Seq samLine) ≤ max_int →
  Pos samLine + ref_span (Cigar samLine) ≤ refLen →
  refLen ≤ max_int →
  ∃ out,
    getOneLine samLine refLen = Returns (out, None) ∧
    len out = refLen ∧
    out = replicate (Z.to_nat (Pos samLine)) "*"%char
          ++ emissions (Seq samLine) 0 (Cigar samLine)
          ++ replicate
               (Z.to_nat (refLen - Pos samLine - ref_span (Cigar samLine)))
               "*"%char.
Proof.
  intros HPos Hok HS Hroom HL.
  pose proof (ref_span_nonneg _ _ _ Hok) as Hnn.
  pose proof (length_emissions _ _ 0 ltac:(lia) Hok) as Hem.
  destruct (expand_loop_fits (Seq samLine) (Cigar samLine) HS
              (replicate (Z.to_nat (Pos samLine)) "*"%char) 0 (Pos samLine))
    as [q' Hloop]; try done; [lia|].
  set (body := replicate (Z.to_nat (Pos samLine)) "*"%char
               ++ emissions (Seq samLine) 0 (Cigar samLine)) in *.
  assert (Hbody : len body = Pos samLine + ref_span (Cigar samLine)).
  { unfold body, len in *. rewrite length_app, length_replicate. lia. }
  eexists. split; [|split; [|reflexivity]].
  - unfold getOneLine. rewrite bool_decide_eq_false_2 by lia.
    rewrite make_filled_nonneg by done. simpl. rewrite Hloop. simpl.
    rewrite Hbody, int_sub_exact
      by (unfold is_int, min_int, max_int in *; lia).
    rewrite make_filled_nonneg by lia. simpl.
    unfold body. rewrite <- app_assoc.
    by replace (refLen - (Pos samLine + ref_span (Cigar samLine)))
      with (refLen - Pos samLine - ref_span (Cigar samLine)) by lia.
  - fold body. rewrite app_assoc. fold body.
    unfold len in *. rewrite length_app, length_replicate. lia.
Qed.

Lemma getOneLine_fits_witness :
  ∃ out,
    getOneLine (mkRecord "q1" 2 (bytes "ACGT")
                  [mkCigarOp CigarMatch 2; mkCigarOp CigarDeletion 1;
                   mkCigarOp CigarInsertion 1; mkCigarOp CigarMatch 1] 0) 8
    = Returns (out, None) ∧ len out = 8 ∧ out = bytes "**AC-T**".
Proof.
  destruct (getOneLine_fits
              (mkRecord "q1" 2 (bytes "ACGT")
                 [mkCigarOp CigarMatch 2; mkCigarOp CigarDeletion 1;
                  mkCigarOp CigarInsertion 1; mkCigarOp CigarMatch 1] 0) 8)
    as (out & Hrun & Hlen & Hout).
  - simpl. lia.
  - reflexivity.
  - vm_compute. discriminate.
  - vm_compute. discriminate.
  - vm_compute. discriminate.
  - exists out. split; [exact Hrun | split; [exact Hlen | exact Hout]].
Defined.

(** C2, as the claim has it, fails: a read that ends after the reference
    length makes [make] panic on a negative length. *)
Lemma getOneLine_short_reference :
  0 ≤ Pos (mkRecord "q1" 0 (bytes "ACGT") [mkCigarOp CigarMatch 4] 0) ∧
  ¬ ∃ out e,
      getOneLine (mkRecord "q1" 0 (bytes "ACGT") [mkCigarOp CigarMatch 4] 0) 3
      = Returns (out, e).
Proof.
  split; [simpl; lia|]. intros (out & e & Hrun).
  vm_compute in Hrun. discriminate.
Qed.

(** ** The indel extractor *)

Lemma bind_skip {B} (k : unit → trace B) : (skip ≫= k) = k ().
Proof. unfold mbind, trace_bind, skip. simpl. by destruct (k ()). Qed.

Lemma String_is_I ty :
  bool_decide (CigarOpType_String ty = "I"%string)
  = bool_decide (ty = CigarInsertion).
Proof. by destruct ty. Qed.

Lemma String_is_D ty :
  bool_decide (CigarOpType_String ty = "D"%string)
  = bool_decide (ty = CigarDeletion).
Proof. by destruct ty. Qed.

(** One turn of the loop on a recognized operator that fits. *)
Lemma indel_loop_step (QNAME : string) (S : list byte) op ops q r :
  recognized (Type_ op) = true → 0 ≤ Len op →
  (consumes_query (Type_ op) = true → 0 ≤ q ∧ q + Len op ≤ len S) →
  len S ≤ max_int → 0 ≤ r →
  (consumes_ref (Type_ op) = true → r + Len op ≤ max_int) →
  indel_loop getCigarOperationMapNoInsertions QNAME S (op :: ops) q r
  = ((occurrences QNAME S [op] q r
      ++ (indel_loop getCigarOperationMapNoInsertions QNAME S ops
            (next_q q op) (next_r r op)).1),
     (indel_loop getCigarOperationMapNoInsertions QNAME S ops
        (next_q q op) (next_r r op)).2).
Proof.
  intros Hrec Hn Hq HS Hr0 Hr.
  pose proof (call_op_fits S q r op Hrec Hn Hq HS Hr0 Hr) as Hcall.
  cbn [indel_loop occurrences]. unfold getCigarOperationMapNoInsertions.
  rewrite Hcall, String_is_I, String_is_D.
  destruct (indel_loop getCigarOperationMap QNAME S ops _ _) as [t o] eqn:Hrest.
  destruct op as [ty n]; cbn [Type_ Len] in *.
  destruct ty; try discriminate;
    rewrite ?bool_decide_eq_true_2, ?bool_decide_eq_false_2 by done;
    try (unfold mbind, trace_bind, run, skip, emit; simpl; by rewrite Hrest).
  destruct (Hq eq_refl) as [Hq0 HqS].
  rewrite int_add_exact by (unfold is_int, min_int, max_int in *; lia).
  rewrite slice_in_range by lia.
  replace (q + n - q) with n by lia.
  unfold mbind, trace_bind, run, skip, emit; simpl. by rewrite Hrest.
Qed.

Lemma indel_loop_fits (QNAME : string) (S : list byte) (ops : list CigarOp) :
  len S ≤ max_int →
  ∀ q r : Z,
    0 ≤ q → 0 ≤ r → cigar_ok S q ops = true → r + ref_span ops ≤ max_int →
    indel_loop getCigarOperationMapNoInsertions QNAME S ops q r
    = (occurrences QNAME S ops q r, Returns ()).
Proof.
  intros HS. induction ops as [|op ops IH]; intros q r Hq Hr Hok Hspan; [done|].
  split_cigar_ok Hok.
  pose proof (ref_span_nonneg _ _ _ Hrest) as Hnn.
  destruct (cigar_ok_fit S q op Hq Hlen Hfit) as [Hfit' Hq'].
  simpl in Hspan.
  assert (consumes_ref (Type_ op) = true → r + Len op ≤ max_int)
    by (intros Hc; rewrite Hc in Hspan; lia).
  rewrite indel_loop_step by done.
  rewrite IH; try done.
  - simpl. by rewrite app_nil_r.
  - unfold next_r. destruct (consumes_ref _); lia.
  - unfold next_r. destruct (consumes_ref _); lia.
Qed.

(** C4, as amended.  For a mapped record whose operators fit its query
    sequence (every kind one of the nine, no negative length, the query
    cursor never past the end of the sequence), a worker that receives the
    record returns after sending exactly the occurrences of the operator
    sequence: for each Insertion of length [n] at cursors [(q, r)] the
    occurrence [(name, r, S[q..q+n))], for each Deletion of length [n] at
    reference cursor [r] the occurrence [(name, r, n)], nothing for the other
    kinds, the cursors moving as the interpreter's do.  The operators
    [(M,5) (I,2) (M,3) (D,4) (M,1)] from reference position 10 give one
    insertion at 15 and one deletion at 18 of length 4. *)
Theorem getIndels_occurrences :
  (∀ samLine : Record_,
     0 ≤ Pos samLine →
     cigar_ok (Seq samLine) 0 (Cigar samLine) = true →
     len (Seq samLine) ≤ max_int →
     Pos samLine + ref_span (Cigar samLine) ≤ max_int →
     getIndels [samLine]
     = (occurrences (Name samLine) (Seq samLine) (Cigar samLine) 0 (Pos samLine),
        Returns ())) ∧
  (∀ (QNAME : string) (S : list byte) (flags : Z),
     length S = 11%nat →
     getIndels
       [mkRecord QNAME 10 S
          [mkCigarOp CigarMatch 5; mkCigarOp CigarInsertion 2;
           mkCigarOp CigarMatch 3; mkCigarOp CigarDeletion 4;
           mkCigarOp CigarMatch 1] flags]
     = ([to_cIns (mkIns QNAME 15 (String.string_of_list_ascii (sub S 5 2)));
         to_cDel (mkDel QNAME 18 4)],
        Returns ())).
Proof.
  assert (Hgen : ∀ samLine : Record_,
     0 ≤ Pos samLine →
     cigar_ok (Seq samLine) 0 (Cigar samLine) = true →
     len (Seq samLine) ≤ max_int →
     Pos samLine + ref_span (Cigar samLine) ≤ max_int →
     getIndels [samLine]
     = (occurrences (Name samLine) (Seq samLine) (Cigar samLine) 0 (Pos samLine),
        Returns ())).
  { intros samLine HPos Hok HS Hspan.
    assert (Hrec : getIndels_record samLine
              = (occurrences (Name samLine) (Seq samLine) (Cigar samLine) 0
                   (Pos samLine), Returns ())).
    { unfold getIndels_record.
      rewrite bool_decide_eq_false_2 by lia. rewrite bind_skip.
      by apply indel_loop_fits. }
    cbn [getIndels]. unfold mbind, trace_bind. rewrite Hrec. cbn.
    by rewrite app_nil_r. }
  split; [exact Hgen|].
  intros QNAME S flags HS. rewrite Hgen; [done|..]; cbn -[max_int].
  - lia.
  - unfold len. rewrite HS. reflexivity.
  - unfold len. rewrite HS. vm_compute. discriminate.
  - vm_compute. discriminate.
Qed.

Lemma getIndels_occurrences_witness :
  getIndels
    [mkRecord "q1" 10 (bytes "ACGTACGTACG")
       [mkCigarOp CigarMatch 5; mkCigarOp CigarInsertion 2;
        mkCigarOp CigarMatch 3; mkCigarOp CigarDeletion 4;
        mkCigarOp CigarMatch 1] 0]
  = ([to_cIns (mkIns "q1" 15 "CG"); to_cDel (mkDel "q1" 18 4)], Returns ()).
Proof.
  apply (proj1 getIndels_occurrences
           (mkRecord "q1" 10 (bytes "ACGTACGTACG")
              [mkCigarOp CigarMatch 5; mkCigarOp CigarInsertion 2;
               mkCigarOp CigarMatch 3; mkCigarOp CigarDeletion 4;
               mkCigarOp CigarMatch 1] 0)).
  - simpl. lia.
  - reflexivity.
  - vm_compute. discriminate.
  - vm_compute. discriminate.
Defined.

(** C4, as the claim has it, fails: a mapped record without a query
    sequence and with the operators [(M,2) (D,1)] has a Deletion at
    reference cursor 7, but the slice of the match panics first and the
    worker sends nothing. *)
Lemma getIndels_no_sequence :
  0 ≤ Pos (mkRecord "q1" 5 []
             [mkCigarOp CigarMatch 2; mkCigarOp CigarDeletion 1] 0) ∧
  getIndels
    [mkRecord "q1" 5 [] [mkCigarOp CigarMatch 2; mkCigarOp CigarDeletion 1] 0]
  = ([], Panics) ∧
  to_cDel (mkDel "q1" 7 1) ∉
    (getIndels
       [mkRecord "q1" 5 []
          [mkCigarOp CigarMatch 2; mkCigarOp CigarDeletion 1] 0]).1.
Proof.
  split; [simpl; lia|]. split; [reflexivity|].
  intros Hin. vm_compute in Hin. by apply elem_of_nil in Hin.
Qed.

(** ** Records the two paths do not handle *)

Lemma call_op_unrecognized ty q r n (S : list byte) :
  recognized ty = false →
  call_op getCigarOperationMap (CigarOpType_String ty) q r n S = Panics.
Proof.
  intros Hrec. unfold call_op. destruct ty; try discriminate; simpl.
  - by rewrite lookup_B.
  - by rewrite lookup_other.
Qed.

Lemma expand_loop_unrecognized (S : list byte) (ops : list CigarOp) :
  Exists (λ op, recognized (Type_ op) = false) ops →
  ∀ st, expand_loop getCigarOperationMap S ops st = Panics.
Proof.
  induction 1 as [op ops Hop | op ops Hex IH]; intros [[arr q] r];
    cbn [expand_loop].
  - by rewrite call_op_unrecognized.
  - destruct (call_op _ _ _ _ _ _) as [[[q' r'] ext]|]; [|done].
    simpl. apply IH.
Qed.

Lemma indel_loop_unrecognized (QNAME : string) (S : list byte) ops :
  Exists (λ op, recognized (Type_ op) = false) ops →
  ∀ q r, (indel_loop getCigarOperationMap QNAME S ops q r).2 = Panics.
Proof.
  induction 1 as [op ops Hop | op ops Hex IH]; intros q r; cbn [indel_loop].
  - rewrite call_op_unrecognized by done.
    repeat case_bool_decide; try destruct (slice S _ _); done.
  - destruct (call_op _ _ _ _ _ _) as [[[q' r'] ext]|];
      repeat case_bool_decide; try destruct (slice S _ _);
      unfold mbind, trace_bind, run, skip, emit; simpl; try done; apply IH.
Qed.

(** The loop sends occurrences only, never an error. *)
Lemma indel_loop_no_error lambda_dict (QNAME : string) (S : list byte) ops :
  ∀ q r e, to_cErr e ∉ (indel_loop lambda_dict QNAME S ops q r).1.
Proof.
  induction ops as [|op ops IH]; intros q r e; cbn [indel_loop].
  - simpl. apply not_elem_of_nil.
  - destruct (call_op _ _ _ _ _ _) as [[[q' r'] ext]|];
      repeat case_bool_decide; try destruct (slice S _ _);
      unfold mbind, trace_bind, run, skip, emit; simpl;
      try specialize (IH q' r' e);
      set_solver.
Qed.

(** C9, as amended.  A record with an operator outside the nine kinds never
    gets an unrecognized-operator error: the table has no entry for the kind
    and the call panics.  [getOneLine] panics, unless [Pos] is negative and
    the record is rejected as unmapped before its operators are read;
    [getIndels] panics on the record, and sends no error but the one for a
    negative [Pos]. *)
Theorem unrecognized_operator_panics (samLine : Record_) (refLen : Z) :
  Exists (λ op, recognized (Type_ op) = false) (Cigar samLine) →
  getOneLine samLine refLen
  = (if bool_decide (Pos samLine < 0)
     then Returns ([], Some "unmapped read"%string) else Panics) ∧
  (getIndels_record samLine).2 = Panics ∧
  (∀ e, to_cErr e ∈ (getIndels_record samLine).1 →
        Pos samLine < 0 ∧ e = "unmapped read"%string).
Proof.
  intros Hex. split; [|split].
  - unfold getOneLine. case_bool_decide; [done|].
    rewrite make_filled_nonneg by lia. simpl.
    by rewrite expand_loop_unrecognized.
  - unfold getIndels_record, getCigarOperationMapNoInsertions.
    pose proof (indel_loop_unrecognized (Name samLine) (Seq samLine) _ Hex
                  0 (Pos samLine)) as Hp.
    case_bool_decide; unfold mbind, trace_bind, skip, emit; simpl;
      by rewrite Hp.
  - intros e. unfold getIndels_record.
    pose proof (indel_loop_no_error getCigarOperationMapNoInsertions
                  (Name samLine) (Seq samLine) (Cigar samLine) 0
                  (Pos samLine) e) as Hno.
    case_bool_decide; unfold mbind, trace_bind, skip, emit; simpl;
      destruct (indel_loop _ _ _ _ _ _) as [t [[]|]]; simpl in *; set_solver.
Qed.

Lemma unrecognized_operator_panics_witness :
  getOneLine (mkRecord "q1" 0 (bytes "A") [mkCigarOp CigarBack 1] 0) 4
  = Panics ∧
  (getIndels_record (mkRecord "q1" 0 (bytes "A") [mkCigarOp CigarBack 1] 0)).2
  = Panics.
Proof.
  destruct (unrecognized_operator_panics
              (mkRecord "q1" 0 (bytes "A") [mkCigarOp CigarBack 1] 0) 4)
    as (Hexp & Hind & _).
  - apply Exists_cons_hd. reflexivity.
  - split; [exact Hexp | exact Hind].
Defined.

(** C9, as the claim has it, fails: on a mapped record with a [CigarBack]
    operator neither path produces an error value. *)
Lemma unrecognized_operator_no_error :
  recognized (Type_ (mkCigarOp CigarBack 1)) = false ∧
  ¬ ((∃ out e, getOneLine
                 (mkRecord "q1" 0 (bytes "A") [mkCigarOp CigarBack 1] 0) 4
               = Returns (out, Some e)) ∨
     (∃ e, to_cErr e ∈
             (getIndels_record
                (mkRecord "q1" 0 (bytes "A") [mkCigarOp CigarBack 1] 0)).1)).
Proof.
  split; [done|]. intros [(out & e & Hrun) | (e & Hin)].
  - vm_compute in Hrun. discriminate.
  - vm_compute in Hin. by apply elem_of_nil in Hin.
Qed.

(** A record with a negative [Pos]: [getOneLine] returns the error at once;
    [getIndels] sends it and then runs the loop over the operators. *)
Lemma negative_start (samLine : Record_) (refLen : Z) :
  Pos samLine < 0 →
  getOneLine samLine refLen = Returns ([], Some "unmapped read"%string) ∧
  getIndels_record samLine
  = (to_cErr "unmapped read"
       :: (indel_loop getCigarOperationMapNoInsertions (Name samLine)
             (Seq samLine) (Cigar samLine) 0 (Pos samLine)).1,
     (indel_loop getCigarOperationMapNoInsertions (Name samLine)
        (Seq samLine) (Cigar samLine) 0 (Pos samLine)).2).
Proof.
  intros HPos. unfold getOneLine, getIndels_record.
  by rewrite !bool_decide_eq_true_2 by done.
Qed.

(** C8: the code at a record with a negative [Pos] and a clear unmapped
    flag.  The reader passes it on; [getOneLine] returns the error and no
    sequence; [getIndels] sends the same error and then walks the operators
    all the same, sending the record's occurrences. *)
Theorem getIndels_negative_start :
  getSamRecords
    [mkRecord "q1" (-1) (bytes "AC") [mkCigarOp CigarInsertion 2] 0]
  = [mkRecord "q1" (-1) (bytes "AC") [mkCigarOp CigarInsertion 2] 0] ∧
  getOneLine (mkRecord "q1" (-1) (bytes "AC") [mkCigarOp CigarInsertion 2] 0) 10
  = Returns ([], Some "unmapped read"%string) ∧
  getIndels
    [mkRecord "q1" (-1) (bytes "AC") [mkCigarOp CigarInsertion 2] 0]
  = ([to_cErr "unmapped read"; to_cIns (mkIns "q1" (-1) "AC")], Returns ()).
Proof. repeat split; reflexivity. Qed.

(** ** The partitioner *)

Lemma name_changes_snoc (blocks : list (list Record_)) (b : list Record_) :
  name_changes blocks →
  (∀ b', last blocks = Some b' → other_query b' b) →
  name_changes (blocks ++ [b]).
Proof.
  induction blocks as [|b1 blocks IH]; intros Hch Hlast; [done|].
  destruct blocks as [|b2 blocks].
  - simpl. split; [|done]. by apply Hlast.
  - destruct Hch as [H12 Hch]. split; [done|]. apply IH; [done|].
    intros b' Hb'. by apply Hlast.
Qed.

Lemma group_step_first rec :
  group_inv (group_step (mkGroup [] true "" []) rec).
Proof.
  unfold group_inv, group_step. simpl. repeat split; try done.
  by repeat constructor.
Qed.

Lemma group_step_inv st rec : group_inv st → group_inv (group_step st rec).
Proof.
  intros (Hfirst & Hne & Hsame & Hsent & Hch & Hlast).
  unfold group_step. rewrite Hfirst.
  case_bool_decide as Hname; unfold group_inv; simpl.
  - repeat split; try done; [by repeat constructor | | |].
    + apply Forall_app. split; [done|]. repeat constructor; [done|].
      by exists (previous st).
    + by apply name_changes_snoc.
    + intros b. rewrite last_snoc. intros [= <-] r1 r2 Hr1 Hr2.
      apply list_elem_of_singleton in Hr2 as ->.
      rewrite Forall_forall in Hsame. rewrite (Hsame r1 Hr1). congruence.
  - repeat split; try done.
    + by destruct (samLineGroup st).
    + apply Forall_app. split; [by rewrite Hname | by repeat constructor].
    + intros b Hb r1 r2 Hr1 Hr2. apply elem_of_app in Hr2 as [Hr2|Hr2].
      * by apply (Hlast b Hb).
      * apply list_elem_of_singleton in Hr2 as ->. rewrite Hname.
        destruct (samLineGroup st) as [|r0 l] eqn:Hg; [done|].
        apply Forall_cons in Hsame as [<- _].
        apply (Hlast b Hb); [done | by left].
Qed.

Lemma group_steps_inv recs st :
  group_inv st → group_inv (foldl group_step st recs).
Proof.
  revert st. induction recs as [|rec recs IH]; intros st Hinv; [done|].
  simpl. apply IH. by apply group_step_inv.
Qed.

Lemma group_step_concat st rec :
  concat (chnl (group_step st rec)) ++ samLineGroup (group_step st rec)
  = (concat (chnl st) ++ samLineGroup st) ++ [rec].
Proof.
  unfold group_step. destruct (first st); [simpl; by rewrite app_assoc|].
  case_bool_decide; simpl.
  - by rewrite concat_app, concat_cons, app_nil_r.
  - by rewrite app_assoc.
Qed.

Lemma group_steps_concat recs st :
  concat (chnl (foldl group_step st recs))
    ++ samLineGroup (foldl group_step st recs)
  = (concat (chnl st) ++ samLineGroup st) ++ recs.
Proof.
  revert st. induction recs as [|rec recs IH]; intros st; simpl.
  - by rewrite app_nil_r.
  - rewrite IH, group_step_concat. by rewrite <- app_assoc.
Qed.

(** The blocks cover the stream in order; on a stream with at least one
    record every block is the block of one query, and a block ends exactly
    where the next record has another name. *)
Lemma groupSamRecords_blocks (recs : list Record_) :
  concat (groupSamRecords recs) = recs ∧
  (recs ≠ [] →
   Forall one_query (groupSamRecords recs) ∧
   name_changes (groupSamRecords recs)).
Proof.
  unfold groupSamRecords. split.
  - rewrite concat_app, concat_cons, concat_nil, app_nil_r.
    by rewrite group_steps_concat.
  - destruct recs as [|rec recs]; [done|]. intros _. simpl.
    pose proof (group_steps_inv recs _ (group_step_first rec))
      as (_ & Hne & Hsame & Hsent & Hch & Hlast).
    split.
    + apply Forall_app. split; [done|]. repeat constructor; [done|].
      by eexists.
    + by apply name_changes_snoc.
Qed.

(** C5: the code on the empty stream.  The block in progress is sent at the
    end of the stream whether or not a record was read, so a stream without
    records yields one block, and that block is empty. *)
Theorem groupSamRecords_empty_stream :
  groupSamRecords [] = [[]] ∧ ¬ Forall one_query (groupSamRecords []).
Proof.
  split; [done|]. intros Hall. simpl in Hall.
  apply Forall_cons in Hall as [[Hne _] _]. by apply Hne.
Qed.

(** ** Boundary normalization *)

(** After the turns for the indices below [k], the positions below [k] hold
    their rewritten byte and the others their original one. *)
Lemma foldl_update_prefix g (seq : list byte) (k : nat) :
  (k ≤ length seq)%nat →
  let acc := foldl (update_step g) seq (seqZ 0 (Z.of_nat k)) in
  length acc = length seq ∧
  ∀ (j : nat) (x : byte), seq !! j = Some x →
    acc !! j = Some (if decide (j < k)%nat then g (Z.of_nat j) x else x).
Proof.
  induction k as [|k IH]; intros Hk; cbv zeta.
  - split; [done|]. by intros j x Hj.
  - destruct IH as [Hlen Hacc]; [lia|].
    replace (Z.of_nat (S k)) with (Z.of_nat k + 1) by lia.
    rewrite seqZ_app by lia. rewrite Z.add_0_l, foldl_app.
    change (seqZ (Z.of_nat k) 1) with [Z.of_nat k]. cbn [foldl].
    set (acc := foldl (update_step g) seq (seqZ 0 (Z.of_nat k))) in *.
    destruct (lookup_lt_is_Some_2 seq k) as [L HL]; [lia|].
    pose proof (Hacc k L HL) as HaccK. rewrite decide_False in HaccK by lia.
    unfold update_step. rewrite Nat2Z.id, HaccK. split.
    + by rewrite length_insert.
    + intros j x Hj. destruct (decide (j = k)) as [->|Hne].
      * rewrite list_lookup_insert_eq by lia. rewrite decide_True by lia.
        congruence.
      * rewrite list_lookup_insert_ne by done. rewrite (Hacc j x Hj).
        repeat case_decide; try done; lia.
Qed.

Lemma foldl_update_step g (seq : list byte) :
  let out := foldl (update_step g) seq (seqZ 0 (len seq)) in
  length out = length seq ∧
  ∀ (j : nat) (x : byte), seq !! j = Some x →
    out !! j = Some (g (Z.of_nat j) x).
Proof.
  destruct (foldl_update_prefix g seq (length seq)) as [Hlen Hacc]; [done|].
  split; [done|]. intros j x Hj. unfold len. rewrite (Hacc j x Hj).
  apply lookup_lt_Some in Hj. by rewrite decide_True by lia.
Qed.

Lemma swapInNs_step_update seq i :
  swapInNs_step seq i = update_step swapInNs_byte seq i.
Proof.
  unfold swapInNs_step, update_step, swapInNs_byte.
  destruct (seq !! Z.to_nat i) as [L|] eqn:HL; [|done].
  case_bool_decide; [done|]. by rewrite list_insert_id.
Qed.

Lemma swapInGapsNs_step_update fi li seq i :
  swapInGapsNs_step fi li seq i = update_step (swapInGapsNs_byte fi li) seq i.
Proof.
  unfold swapInGapsNs_step, update_step, swapInGapsNs_byte, put_if_star.
  destruct (seq !! Z.to_nat i) as [L|] eqn:HL; [|done].
  destruct (bool_decide (L = "*"%char));
    repeat case_bool_decide;
    rewrite ?list_insert_insert_eq; try done; try lia;
    by rewrite list_insert_id.
Qed.

Lemma foldl_ext_steps {A B} (f g : A → B → A) (a : A) (l : list B) :
  (∀ a b, f a b = g a b) → foldl f a l = foldl g a l.
Proof.
  intros Hfg. revert a. induction l as [|b l IH]; intros a; simpl; [done|].
  by rewrite Hfg, IH.
Qed.

Lemma swapInNs_lookup (seq : list byte) :
  length (swapInNs seq) = length seq ∧
  ∀ (j : nat) (x : byte), seq !! j = Some x →
    swapInNs seq !! j = Some (swapInNs_byte (Z.of_nat j) x).
Proof.
  unfold swapInNs.
  rewrite (foldl_ext_steps _ (update_step swapInNs_byte))
    by apply swapInNs_step_update.
  apply foldl_update_step.
Qed.

Lemma swapInGapsNs_lookup (seq : list byte) :
  length (swapInGapsNs seq) = length seq ∧
  ∀ (j : nat) (x : byte), seq !! j = Some x →
    swapInGapsNs seq !! j
    = Some (swapInGapsNs_byte (letter_scan seq).1.2 (letter_scan seq).2
              (Z.of_nat j) x).
Proof.
  unfold swapInGapsNs. destruct (letter_scan seq) as [[fl fi] li]. simpl.
  rewrite (foldl_ext_steps _ (update_step (swapInGapsNs_byte fi li)))
    by apply swapInGapsNs_step_update.
  apply foldl_update_step.
Qed.

(** C10.  Each of the two passes keeps the length of the sequence and
    leaves every byte that is not '*' at its position. *)
Theorem normalization_frame (seq : list byte) :
  (length (swapInNs seq) = length seq ∧
   ∀ (i : nat) (b : byte), seq !! i = Some b → b ≠ "*"%char →
     swapInNs seq !! i = Some b) ∧
  (length (swapInGapsNs seq) = length seq ∧
   ∀ (i : nat) (b : byte), seq !! i = Some b → b ≠ "*"%char →
     swapInGapsNs seq !! i = Some b).
Proof.
  destruct (swapInNs_lookup seq) as [HlenN HN].
  destruct (swapInGapsNs_lookup seq) as [HlenG HG].
  split; (split; [done|]); intros i b Hi Hb.
  - rewrite (HN i b Hi). unfold swapInNs_byte.
    by rewrite bool_decide_eq_false_2.
  - rewrite (HG i b Hi). unfold swapInGapsNs_byte.
    by rewrite bool_decide_eq_false_2.
Qed.

Lemma normalization_frame_witness :
  swapInNs (bytes "*A-*") !! 2%nat = Some "-"%char ∧
  swapInGapsNs (bytes "*A-*") !! 1%nat = Some "A"%char.
Proof.
  destruct (normalization_frame (bytes "*A-*")) as [[_ HN] [_ HG]].
  split.
  - apply HN; [reflexivity | discriminate].
  - apply HG; [reflexivity | discriminate].
Defined.

Lemma zip_seqZ_cons (k : Z) (x : byte) (l : list byte) :
  zip (seqZ k (len (x :: l))) (x :: l) = (k, x) :: zip (seqZ (k + 1) (len l)) l.
Proof.
  unfold len. rewrite seqZ_cons by (simpl; lia). simpl.
  do 3 f_equal; lia.
Qed.

Lemma scan_no_letter (l : list byte) :
  ∀ k st, Forall (λ c, ¬ IsLetter c) l →
    foldl letter_step st (zip (seqZ k (len l)) l) = st.
Proof.
  induction l as [|x l IH]; intros k st Hall; [done|].
  apply Forall_cons in Hall as [Hx Hl].
  rewrite zip_seqZ_cons. cbn [foldl]. rewrite IH by done.
  destruct st as [[fl fi] li]. unfold letter_step.
  by destruct (IsLetter x).
Qed.

Lemma scan_keeps_first (l : list byte) :
  ∀ k fi li, ∃ li',
    foldl letter_step (false, fi, li) (zip (seqZ k (len l)) l)
    = (false, fi, li').
Proof.
  induction l as [|x l IH]; intros k fi li; [by exists li|].
  rewrite zip_seqZ_cons. cbn [foldl]. unfold letter_step at 2.
  destruct (IsLetter x); apply IH.
Qed.

Lemma scan_first (l : list byte) :
  ∀ (j : nat) (a : byte) k fi li,
    l !! j = Some a → IsLetter a →
    (∀ (i : nat) c, (i < j)%nat → l !! i = Some c → ¬ IsLetter c) →
    ∃ li',
      foldl letter_step (true, fi, li) (zip (seqZ k (len l)) l)
      = (false, k + Z.of_nat j, li').
Proof.
  induction l as [|x l IH]; intros j a k fi li Hj Ha Hbefore; [done|].
  rewrite zip_seqZ_cons. cbn [foldl]. unfold letter_step at 2.
  destruct j as [|j]; simpl in Hj.
  - injection Hj as ->. rewrite (Is_true_true_1 _ Ha).
    rewrite Z.add_0_r. apply scan_keeps_first.
  - assert (Hx : ¬ IsLetter x) by (apply (Hbefore 0%nat); [lia | done]).
    rewrite (Is_true_false_1 _ Hx).
    destruct (IH j a (k + 1) fi li Hj Ha) as [li' Heq].
    { intros i c Hi Hc. apply (Hbefore (S i)); [lia | done]. }
    exists li'. rewrite Heq. do 2 f_equal. lia.
Qed.

Lemma scan_last (l : list byte) :
  ∀ (j : nat) (b : byte) k st,
    l !! j = Some b → IsLetter b →
    (∀ (i : nat) c, (j < i)%nat → l !! i = Some c → ¬ IsLetter c) →
    (foldl letter_step st (zip (seqZ k (len l)) l)).2 = k + Z.of_nat j.
Proof.
  induction l as [|x l IH]; intros j b k st Hj Hb Hafter; [done|].
  rewrite zip_seqZ_cons. cbn [foldl].
  destruct j as [|j]; simpl in Hj.
  - injection Hj as ->. rewrite scan_no_letter.
    + destruct st as [[fl fi] li]. unfold letter_step.
      rewrite (Is_true_true_1 _ Hb). simpl. lia.
    + apply Forall_lookup. intros i c Hc.
      apply (Hafter (S i)); [lia | done].
  - rewrite (IH j b (k + 1) _ Hj Hb); [lia|].
    intros i c Hi Hc. apply (Hafter (S i)); [lia | done].
Qed.

(** With a first letter at [f] and a last letter at [l], the first loop ends
    with these indices. *)
Lemma letter_scan_first_last (seq : list byte) (f l : nat) (a b : byte) :
  seq !! f = Some a → IsLetter a →
  (∀ (j : nat) c, (j < f)%nat → seq !! j = Some c → ¬ IsLetter c) →
  seq !! l = Some b → IsLetter b →
  (∀ (j : nat) c, (l < j)%nat → seq !! j = Some c → ¬ IsLetter c) →
  (letter_scan seq).1.2 = Z.of_nat f ∧ (letter_scan seq).2 = Z.of_nat l.
Proof.
  intros Hf Ha Hbefore Hl Hb Hafter. unfold letter_scan. split.
  - destruct (scan_first seq f a 0 0 0 Hf Ha Hbefore) as [li' ->]. simpl. lia.
  - rewrite (scan_last seq l b 0 _ Hl Hb Hafter). lia.
Qed.

(** C6.  [swapInNs] puts 'N' wherever the sequence holds '*'.  When the
    sequence has a letter, the first at index [f] and the last at index [l],
    [swapInGapsNs] puts '-' at the '*' positions before [f] or after [l] and
    'N' at those strictly between [f] and [l].  On "**AC**" the
    boundary-aware pass gives "--AC--". *)
Theorem normalization_passes :
  (∀ (seq : list byte) (i : nat),
     seq !! i = Some "*"%char → swapInNs seq !! i = Some "N"%char) ∧
  (∀ (seq : list byte) (f l : nat) (a b : byte),
     seq !! f = Some a → IsLetter a →
     (∀ (j : nat) c, (j < f)%nat → seq !! j = Some c → ¬ IsLetter c) →
     seq !! l = Some b → IsLetter b →
     (∀ (j : nat) c, (l < j)%nat → seq !! j = Some c → ¬ IsLetter c) →
     ∀ i : nat, seq !! i = Some "*"%char →
       ((i < f ∨ l < i)%nat → swapInGapsNs seq !! i = Some "-"%char) ∧
       ((f < i < l)%nat → swapInGapsNs seq !! i = Some "N"%char)) ∧
  swapInGapsNs (bytes "**AC**") = bytes "--AC--".
Proof.
  split; [|split; [|reflexivity]].
  - intros seq i Hi. destruct (swapInNs_lookup seq) as [_ HN].
    by rewrite (HN i _ Hi).
  - intros seq f l a b Hf Ha Hbefore Hl Hb Hafter i Hi.
    destruct (swapInGapsNs_lookup seq) as [_ HG].
    destruct (letter_scan_first_last seq f l a b) as [Hfi Hli]; try done.
    rewrite (HG i _ Hi), Hfi, Hli. unfold swapInGapsNs_byte.
    rewrite bool_decide_eq_true_2 by done.
    assert (f ≤ l)%nat.
    { destruct (decide (f ≤ l)%nat) as [|Hlt]; [done|].
      destruct (Hafter f a); [lia | done | done]. }
    split; intros Hpos; repeat case_bool_decide; try done; lia.
Qed.

Lemma normalization_passes_witness :
  swapInNs (bytes "*A*C*") !! 2%nat = Some "N"%char ∧
  swapInGapsNs (bytes "*A*C*") !! 0%nat = Some "-"%char ∧
  swapInGapsNs (bytes "*A*C*") !! 2%nat = Some "N"%char.
Proof.
  destruct normalization_passes as (HN & HG & _).
  assert (Hbefore : ∀ (j : nat) c, (j < 1)%nat →
            bytes "*A*C*" !! j = Some c → ¬ IsLetter c).
  { intros j c Hj Hc. assert (j = 0%nat) as -> by lia.
    injection Hc as <-. vm_compute. exact (λ x, x). }
  assert (Hafter : ∀ (j : nat) c, (3 < j)%nat →
            bytes "*A*C*" !! j = Some c → ¬ IsLetter c).
  { intros j c Hj Hc. do 4 (destruct j as [|j]; [lia|]).
    destruct j as [|j]; [|discriminate].
    injection Hc as <-. vm_compute. exact (λ x, x). }
  split; [|split].
  - apply HN. reflexivity.
  - apply (HG (bytes "*A*C*") 1%nat 3%nat "A"%char "C"%char eq_refl I
             Hbefore eq_refl I Hafter 0%nat eq_refl). lia.
  - apply (HG (bytes "*A*C*") 1%nat 3%nat "A"%char "C"%char eq_refl I
             Hbefore eq_refl I Hafter 2%nat eq_refl). lia.
Defined.

(** ** The consensus resolver *)

Lemma site_map_lookup (s : list byte) (b : byte) :
  ∀ m : gmap byte bool,
    foldl (λ (m : gmap byte bool) b, <[b := true]> m) m s !! b
    = if decide (b ∈ s) then Some true else m !! b.
Proof.
  induction s as [|x s IH]; intros m; simpl.
  - done.
  - rewrite IH. destruct (decide (b ∈ s)) as [Hin|Hnin].
    + rewrite decide_True; [done | by apply elem_of_cons; right].
    + destruct (decide (b = x)) as [->|Hne].
      * rewrite lookup_insert_eq. rewrite decide_True; [done | by left].
      * rewrite lookup_insert_ne by done. rewrite decide_False; [done|].
        intros [?|?]%elem_of_cons; done.
Qed.

Lemma collect_keys_foldl (kvs : list (byte * bool)) :
  ∀ acc,
    foldl (λ s_out (kv : byte * bool), if kv.2 then s_out ++ [kv.1] else s_out)
          acc kvs
    = acc ++ (filter (λ kv, kv.2 = true) kvs).*1.
Proof.
  induction kvs as [|[k v] kvs IH]; intros acc; cbn [foldl].
  - by rewrite app_nil_r.
  - rewrite IH. destruct v; cbn [fst snd].
    + rewrite filter_cons_True by done. rewrite fmap_cons.
      by rewrite <- app_assoc.
    + by rewrite filter_cons_False by done.
Qed.

Lemma filter_all {A} (P : A → Prop) `{∀ x, Decision (P x)} (l : list A) :
  Forall P l → filter P l = l.
Proof.
  induction 1 as [|x l Hx Hl IH]; [done|].
  by rewrite filter_cons_True, IH.
Qed.

(** The set is a duplicate-free list of the bytes of the column, whatever
    the order in which the map is visited. *)
Lemma getSetFromSlice_elements (s ss : list byte) :
  getSetFromSlice s ss → NoDup ss ∧ ∀ b, b ∈ ss ↔ b ∈ s.
Proof.
  intros (kvs & Hrange & ->). unfold go_range in Hrange.
  assert (Htrue : ∀ kv, kv ∈ kvs → kv.2 = true).
  { intros [k v] Hin. rewrite Hrange in Hin.
    apply elem_of_map_to_list in Hin. unfold site_map in Hin.
    rewrite site_map_lookup in Hin. destruct (decide (k ∈ s)); simpl.
    - congruence.
    - by rewrite lookup_empty in Hin. }
  unfold collect_keys. rewrite collect_keys_foldl. simpl.
  replace (filter (λ kv : byte * bool, kv.2 = true) kvs) with kvs.
  2:{ symmetry. apply filter_all. by apply Forall_forall. }
  split.
  - rewrite Hrange. apply NoDup_fst_map_to_list.
  - intros b. rewrite Hrange. rewrite list_elem_of_fmap. split.
    + intros ([k v] & -> & Hin). apply elem_of_map_to_list in Hin.
      unfold site_map in Hin. rewrite site_map_lookup in Hin. simpl.
      destruct (decide (k ∈ s)); [done|]. by rewrite lookup_empty in Hin.
    + intros Hin. exists (b, true). split; [done|].
      apply elem_of_map_to_list. unfold site_map.
      rewrite site_map_lookup. by rewrite decide_True.
Qed.

Lemma NoDup_byte_length (l : list byte) : NoDup l → (length l ≤ 256)%nat.
Proof.
  intros Hnd.
  assert (Hsub : l ⊆+ (ascii_of_nat <$> seq 0 256)).
  { apply NoDup_submseteq; [done|]. intros a _. apply list_elem_of_fmap.
    exists (nat_of_ascii a). split; [by rewrite ascii_nat_embedding|].
    apply elem_of_seq. pose proof (nat_ascii_bounded a). lia. }
  apply submseteq_length in Hsub.
  by rewrite length_fmap, length_seq in Hsub.
Qed.

Lemma count_letters_foldl (ss : list byte) :
  ∀ c, 0 ≤ c → c + Z.of_nat (length ss) ≤ max_int →
    foldl (λ check e, if IsLetter e then int_add check 1 else check) c ss
    = c + Z.of_nat (length (filter (λ e, IsLetter e) ss)).
Proof.
  induction ss as [|e ss IH]; intros c Hc Hle; simpl in *; [lia|].
  pose proof (length_filter (λ e, IsLetter e) ss) as Hfl.
  destruct (IsLetter e) eqn:He.
  - rewrite filter_cons_True by (rewrite He; exact I). cbn [length].
    rewrite int_add_exact by (unfold is_int, min_int, max_int in *; lia).
    rewrite IH; lia.
  - rewrite filter_cons_False by (rewrite He; exact (λ x, x)).
    rewrite IH; lia.
Qed.

Lemma count_letters_filter (ss : list byte) :
  NoDup ss →
  count_letters ss = Z.of_nat (length (filter (λ e, IsLetter e) ss)).
Proof.
  intros Hnd. apply NoDup_byte_length in Hnd. unfold count_letters.
  rewrite count_letters_foldl; unfold max_int; lia.
Qed.

Lemma ambiguous_filter (s ss : list byte) :
  NoDup ss → (∀ b, b ∈ ss ↔ b ∈ s) →
  ambiguous s ↔ (1 < length (filter (λ e, IsLetter e) ss))%nat.
Proof.
  intros Hnd Hel. split.
  - intros (a & b & Ha & Hb & Hne & HLa & HLb).
    assert (Hfa : a ∈ filter (λ e, IsLetter e) ss)
      by (apply list_elem_of_filter; split; [done | by apply Hel]).
    assert (Hfb : b ∈ filter (λ e, IsLetter e) ss)
      by (apply list_elem_of_filter; split; [done | by apply Hel]).
    destruct (filter (λ e, IsLetter e) ss) as [|x [|y fl]]; simpl; [..|lia].
    + by apply elem_of_nil in Hfa.
    + apply list_elem_of_singleton in Hfa, Hfb. congruence.
  - intros Hlen.
    pose proof (NoDup_filter (λ e, IsLetter e) ss Hnd) as Hndf.
    destruct (filter (λ e, IsLetter e) ss) as [|x [|y fl]] eqn:Hf;
      simpl in Hlen; [lia | lia |].
    assert (Hx : x ∈ filter (λ e, IsLetter e) ss) by (rewrite Hf; set_solver).
    assert (Hy : y ∈ filter (λ e, IsLetter e) ss) by (rewrite Hf; set_solver).
    apply list_elem_of_filter in Hx as [HLx Hx], Hy as [HLy Hy].
    exists x, y. repeat split; try done; try by apply Hel.
    intros ->. apply NoDup_cons in Hndf as [Hnin _]. set_solver.
Qed.

Lemma max_step_foldl (l : list byte) :
  ∀ (i : Z) (m : byte), 0 < i →
    (foldl max_step (i, m) l).2 ∈ m :: l ∧
    ∀ e : byte, e ∈ m :: l → byte_val e ≤ byte_val (foldl max_step (i, m) l).2.
Proof.
  induction l as [|x l IH]; intros i m Hi; cbn [foldl].
  - split; [by left|]. by intros e ->%list_elem_of_singleton.
  - unfold max_step at 2 4.
    set (m' := if bool_decide (i = 0 ∨ byte_val x > byte_val m) then x else m).
    destruct (IH (i + 1) m') as [Hin Hmax]; [lia|].
    assert (Hm' : m' ∈ [m; x] ∧ byte_val m ≤ byte_val m' ∧ byte_val x ≤ byte_val m').
    { unfold m'. case_bool_decide as Hc.
      - split; [set_solver | lia].
      - split; [set_solver | lia]. }
    destruct Hm' as (Hm'in & Hm & Hx). split.
    + apply elem_of_cons in Hin as [->|Hin]; set_solver.
    + intros e He. pose proof (Hmax m' ltac:(by left)).
      apply elem_of_cons in He as [->|He]; [lia|].
      apply elem_of_cons in He as [->|He]; [lia|].
      apply Hmax. by right.
Qed.

Lemma max_byte_is_max (ss : list byte) : ss ≠ [] → is_max_of ss (max_byte ss).
Proof.
  destruct ss as [|x l]; [done|]. intros _. unfold max_byte. cbn [foldl].
  unfold max_step at 2. rewrite bool_decide_eq_true_2 by (by left).
  apply (max_step_foldl l (0 + 1) x). lia.
Qed.

Lemma is_max_of_elements (s ss : list byte) (m : byte) :
  (∀ b, b ∈ ss ↔ b ∈ s) → is_max_of ss m → is_max_of s m.
Proof.
  intros Hel [Hin Hmax]. split; [by apply Hel|].
  intros e He. apply Hmax. by apply Hel.
Qed.

Lemma getNucFromSite_cases (s : list byte) (nuc : byte) :
  s ≠ [] → getNucFromSite s nuc →
  (ambiguous s → nuc = "N"%char) ∧ (¬ ambiguous s → is_max_of s nuc).
Proof.
  intros Hs (ss & Hset & ->).
  destruct (getSetFromSlice_elements s ss Hset) as [Hnd Hel].
  pose proof (ambiguous_filter s ss Hnd Hel) as Hamb.
  unfold nucFromSet. rewrite count_letters_filter by done.
  split; intros Ha.
  - apply Hamb in Ha. rewrite bool_decide_eq_true_2; [done | lia].
  - rewrite bool_decide_eq_false_2.
    + apply (is_max_of_elements s ss); [done|]. apply max_byte_is_max.
      intros ->. destruct s as [|x s]; [done|].
      by apply (not_elem_of_nil x), Hel; left.
    + intros Hgt. apply Ha, Hamb. lia.
Qed.

Lemma getNucFromSite_run_spec (s : list byte) :
  getNucFromSite s (getNucFromSite_run s).
Proof.
  exists (collect_keys (map_to_list (site_map s))). split; [|reflexivity].
  exists (map_to_list (site_map s)). split; [|reflexivity].
  unfold go_range. reflexivity.
Qed.

(** C3.  The byte chosen for a non-empty column depends on the set of its
    bytes only, not on the order in which the set is enumerated: it is 'N'
    when the column has more than one distinct letter, and otherwise a byte
    of the column of the greatest value.  {A, C} gives 'N', {A, *} gives 'A'
    and {*, -} gives '-'. *)
Theorem consensus_byte :
  (∀ (s : list byte) (nuc : byte),
     s ≠ [] → getNucFromSite s nuc →
     (ambiguous s → nuc = "N"%char) ∧ (¬ ambiguous s → is_max_of s nuc)) ∧
  (∀ s : list byte, getNucFromSite s (getNucFromSite_run s)) ∧
  (∀ nuc, getNucFromSite (bytes "AC") nuc → nuc = "N"%char) ∧
  (∀ nuc, getNucFromSite (bytes "A*") nuc → nuc = "A"%char) ∧
  (∀ nuc, getNucFromSite (bytes "*-") nuc → nuc = "-"%char).
Proof.
  split; [exact getNucFromSite_cases|]. split; [exact getNucFromSite_run_spec|].
  split; [|split]; intros nuc Hnuc.
  - apply (getNucFromSite_cases (bytes "AC")) in Hnuc as [Hamb _]; [|done].
    apply Hamb. exists "A"%char, "C"%char.
    repeat split; [set_solver | set_solver | done].
  - apply (getNucFromSite_cases (bytes "A*")) in Hnuc as [_ Hmax]; [|done].
    destruct Hmax as [Hin Hmax].
    + intros (a & b & Ha & Hb & Hne & HLa & HLb).
      apply elem_of_cons in Ha as [->|Ha], Hb as [->|Hb]; try done;
        apply list_elem_of_singleton in Ha || apply list_elem_of_singleton in Hb;
        subst; done.
    + apply elem_of_cons in Hin as [->|Hin]; [done|].
      apply list_elem_of_singleton in Hin as ->.
      specialize (Hmax "A"%char ltac:(by left)). vm_compute in Hmax. done.
  - apply (getNucFromSite_cases (bytes "*-")) in Hnuc as [_ Hmax]; [|done].
    destruct Hmax as [Hin Hmax].
    + intros (a & b & Ha & Hb & Hne & HLa & HLb).
      apply elem_of_cons in Ha as [->|Ha]; [done|].
      apply list_elem_of_singleton in Ha as ->. done.
    + apply elem_of_cons in Hin as [->|Hin].
      * specialize (Hmax "-"%char ltac:(set_solver)). vm_compute in Hmax. done.
      * by apply list_elem_of_singleton in Hin as ->.
Qed.

Lemma consensus_byte_witness :
  getNucFromSite_run (bytes "AAG") = "N"%char ∧
  is_max_of (bytes "*T-") (getNucFromSite_run (bytes "*T-")).
Proof.
  destruct consensus_byte as (Hcases & Hrun & _).
  split.
  - apply (Hcases (bytes "AAG") (getNucFromSite_run (bytes "AAG"))).
    + discriminate.
    + apply Hrun.
    + exists "A"%char, "G"%char.
      repeat split; [by left | by right; right; left | discriminate].
  - apply (Hcases (bytes "*T-") (getNucFromSite_run (bytes "*T-"))).
    + discriminate.
    + apply Hrun.
    + intros (a & b & Ha & Hb & Hne & HLa & HLb).
      assert (HT : ∀ c : byte, c ∈ bytes "*T-" → IsLetter c → c = "T"%char).
      { intros c Hc HLc.
        apply elem_of_cons in Hc as [->|Hc]; [by vm_compute in HLc|].
        apply elem_of_cons in Hc as [->|Hc]; [done|].
        apply list_elem_of_singleton in Hc as ->. by vm_compute in HLc. }
      apply Hne. by rewrite (HT a Ha HLa), (HT b Hb HLb).
Defined.

(** ** The report writers *)

Section writeMap_rows.
Context `{Countable K}.
Variable header : string.
Variable show : K → string.
Variable m : gmap Z (gmap K (list string)).
Variable threshold : Z.

Lemma write_rows_foldl (k : Z) (vs : list K) :
  is_int (k + 1) →
  ∀ acc,
    foldl (λ written v,
             if bool_decide (len (at2 m k v) < threshold) then written
             else
               let c1 := Itoa (int_add k 1) in
               let c2 := show v in
               let c3 := Join (at2 m k v) "|" in
               written ++ [c1 +:+ tab +:+ c2 +:+ tab +:+ c3 +:+ newline])
          acc vs
    = acc ++ (row_line show <$> rows_of m threshold k vs).
Proof.
  intros Hk. unfold rows_of.
  induction vs as [|v vs IH]; intros acc; cbn [foldl].
  - by rewrite app_nil_r.
  - rewrite IH. case_bool_decide as Hlt.
    + by rewrite filter_cons_False by lia.
    + rewrite filter_cons_True by lia. rewrite !fmap_cons.
      rewrite <- app_assoc. unfold row_line at 2. cbn [fst snd].
      by rewrite int_add_exact.
Qed.

Lemma write_rows_lines (k : Z) (vs : list K) :
  is_int (k + 1) →
  write_rows show m threshold k vs = row_line show <$> rows_of m threshold k vs.
Proof. intros Hk. unfold write_rows. by rewrite write_rows_foldl. Qed.

Lemma rows_of_elem (k : Z) (inner : gmap K (list string))
    (ents : list (K * list string)) (row : Z * K * list string) :
  m !! k = Some inner → go_range inner ents →
  row ∈ rows_of m threshold k (ents.*1)
  ↔ row.1.1 = k ∧ listed m threshold row.
Proof.
  intros Hk Hents. unfold rows_of, listed, go_range in *.
  rewrite list_elem_of_fmap. setoid_rewrite list_elem_of_filter.
  setoid_rewrite list_elem_of_fmap. unfold at2.
  destruct row as [[k' v] names]. cbn [fst snd]. split.
  - intros (v' & [= -> -> ->] & Hlen & [v'' names'] & -> & Hin).
    rewrite Hents in Hin. apply elem_of_map_to_list in Hin.
    cbn [fst] in *. rewrite Hk in Hlen |- *. simpl in Hlen |- *.
    rewrite Hin in Hlen |- *. simpl in Hlen |- *. eauto.
  - intros (-> & (inner' & Hk' & Hv) & Hlen).
    assert (inner' = inner) as -> by congruence.
    exists v. rewrite Hk. simpl. rewrite Hv. simpl. repeat split; [done|].
    exists (v, names). split; [done|]. rewrite Hents.
    by apply elem_of_map_to_list.
Qed.

Lemma rows_of_NoDup (k : Z) (vs : list K) :
  NoDup vs → NoDup (rows_of m threshold k vs).
Proof.
  intros Hnd. unfold rows_of.
  apply NoDup_fmap_2_strong; [|by apply NoDup_filter].
  by intros x y _ _ [= ->].
Qed.

(** The rows of a run over the sorted keys [keys], each with its visiting
    order. *)
Lemma written_rows (keys : list Z) (orders : list (list K)) :
  Forall2 (λ k vs, ∃ ents, go_range (default ∅ (m !! k)) ents ∧ vs = ents.*1)
          keys orders →
  NoDup keys → StronglySorted Z.le keys →
  (∀ k, k ∈ keys → is_Some (m !! k) ∧ is_int (k + 1)) →
  let rows := concat (zip_with (rows_of m threshold) keys orders) in
  concat (zip_with (write_rows show m threshold) keys orders)
    = row_line show <$> rows ∧
  (∀ row, row ∈ rows ↔ row.1.1 ∈ keys ∧ listed m threshold row) ∧
  NoDup rows ∧
  StronglySorted Z.le (rows.*1.*1).
Proof.
  induction 1 as [|k vs keys orders (ents & Hents & ->) Hrest IH];
    intros Hnd Hsorted Hdom; cbv zeta; cbn [zip_with concat].
  - split; [done|]. split; [|split; constructor]. intros row.
    split; [by intros ?%elem_of_nil | by intros [?%elem_of_nil _]].
  - apply NoDup_cons in Hnd as [Hk Hnd].
    apply StronglySorted_cons in Hsorted as [Hle Hsorted].
    destruct (Hdom k ltac:(by left)) as [[inner Hinner] Hint].
    rewrite Hinner in Hents. cbn [default] in Hents.
    destruct IH as (IHlines & IHelem & IHnd & IHsorted); try done.
    { intros k' Hk'. apply Hdom. by right. }
    pose proof (rows_of_elem k inner ents) as Helem.
    split; [|split; [|split]].
    + by rewrite write_rows_lines, IHlines, fmap_app.
    + intros row. rewrite elem_of_app, (Helem row Hinner Hents), IHelem.
      rewrite elem_of_cons. naive_solver.
    + apply NoDup_app. split; [|split; [|done]].
      * apply rows_of_NoDup. unfold go_range in Hents. rewrite Hents.
        apply NoDup_fst_map_to_list.
      * intros row Hrow%Helem Hrow'%IHelem; try done.
        destruct Hrow as [<- _], Hrow' as [? _]. done.
    + rewrite !fmap_app. apply StronglySorted_app_2; [| |done].
      * intros k1 k2 Hk1 Hk2.
        apply list_elem_of_fmap in Hk1 as (p1 & -> & Hp1).
        apply list_elem_of_fmap in Hp1 as (row1 & -> & Hrow1).
        apply list_elem_of_fmap in Hk2 as (p2 & -> & Hp2).
        apply list_elem_of_fmap in Hp2 as (row2 & -> & Hrow2).
        apply Helem in Hrow1 as [-> _]; try done.
        apply IHelem in Hrow2 as [Hin _].
        rewrite Forall_forall in Hle. by apply Hle.
      * clear. unfold rows_of.
        induction (filter _ _) as [|v l IHl]; cbn; constructor; [done|].
        apply Forall_forall. intros k' Hk'.
        apply list_elem_of_fmap in Hk' as (p & -> & Hp).
        apply list_elem_of_fmap in Hp as (row & -> & Hrow).
        apply list_elem_of_fmap in Hrow as (v' & -> & _). done.
Qed.

(** Every run of the writer: the header, then one line for each listed
    row, each once, in ascending order of the primary key. *)
Lemma writeMap_listed (written : list string) :
  (∀ k, is_Some (m !! k) → is_int (k + 1)) →
  writeMap header show m threshold written →
  ∃ rows : list (Z * K * list string),
    written = header :: (row_line show <$> rows) ∧
    (∀ row, row ∈ rows ↔ listed m threshold row) ∧
    NoDup rows ∧
    Sorted Z.le (rows.*1.*1).
Proof.
  intros Hint (kvs & orders & Hkvs & Horders & ->). unfold go_range in Hkvs.
  assert (Hkeys : sort_Ints (kvs.*1) ≡ₚ (map_to_list m).*1).
  { unfold sort_Ints. by rewrite merge_sort_Permutation, Hkvs. }
  assert (Hdom : ∀ k, k ∈ sort_Ints (kvs.*1) ↔ is_Some (m !! k)).
  { intros k. rewrite Hkeys, list_elem_of_fmap. split.
    - intros ([k' inner] & -> & Hin). apply elem_of_map_to_list in Hin.
      by exists inner.
    - intros [inner Hk]. exists (k, inner). split; [done|].
      by apply elem_of_map_to_list. }
  destruct (written_rows (sort_Ints (kvs.*1)) orders Horders)
    as (Hlines & Helem & Hnd & Hsorted).
  - rewrite Hkeys. apply NoDup_fst_map_to_list.
  - apply StronglySorted_merge_sort; apply _.
  - intros k Hk%Hdom. split; [done | by apply Hint].
  - eexists. split; [by rewrite Hlines|]. split; [|split; [done|]].
    + intros row. rewrite Helem, Hdom. unfold listed. naive_solver.
    + by apply Sorted.StronglySorted_Sorted.
Qed.

Lemma writeMap_run_spec :
  writeMap header show m threshold (writeMap_run header show m threshold).
Proof.
  exists (map_to_list m),
    ((λ k, (map_to_list (default ∅ (m !! k))).*1)
       <$> sort_Ints ((map_to_list m).*1)).
  split; [unfold go_range; reflexivity|]. cbv zeta. split.
  - apply Forall2_fmap_r, Forall_Forall2_diag, Forall_forall.
    intros k _. eexists. split; [unfold go_range; reflexivity | done].
  - unfold writeMap_run. do 2 f_equal.
    induction (sort_Ints _) as [|k keys IH]; [done|].
    cbn. by rewrite IH.
Qed.
End writeMap_rows.

(** A map with the single entry [k ↦ v ↦ names] lists that row or none. *)
Lemma listed_singleton `{Countable K} (k : Z) (v : K) (names : list string)
    (threshold : Z) (row : Z * K * list string) :
  listed {[k := {[v := names]}]} threshold row
  ↔ row = (k, v, names) ∧ threshold ≤ len names.
Proof.
  unfold listed. destruct row as [[k' v'] names']. cbn [fst snd]. split.
  - intros [(inner & Hk & Hv) Hlen].
    apply lookup_singleton_Some in Hk as [<- <-].
    apply lookup_singleton_Some in Hv as [<- <-]. done.
  - intros [[= -> -> ->] Hlen]. split; [|done].
    eexists. split; apply lookup_singleton_eq.
Qed.

Lemma rows_singleton {A} (rows : list A) (r : A) :
  NoDup rows → (∀ row, row ∈ rows ↔ row = r) → rows = [r].
Proof.
  intros Hnd Hel. destruct rows as [|r1 rows].
  - pose proof (proj2 (Hel r) eq_refl) as Hin. by apply elem_of_nil in Hin.
  - pose proof (proj1 (Hel r1) ltac:(by left)) as ->.
    destruct rows as [|r2 rows]; [done|].
    pose proof (proj1 (Hel r2) ltac:(by right; left)) as ->.
    apply NoDup_cons in Hnd as [Hnin _]. destruct Hnin. by left.
Qed.

Lemma rows_none {A} (rows : list A) : (∀ row, row ∈ rows ↔ False) → rows = [].
Proof.
  intros Hel. destruct rows as [|r rows]; [done|].
  destruct (proj1 (Hel r)). by left.
Qed.

(** C7.  Whatever the order in which the maps are visited, each writer
    writes the header and then one line for every entry whose sample list
    has at least [threshold] names, and for no other; the lines come in
    ascending order of the primary key, which is printed as key+1, and the
    sample names are joined with '|'.  An entry with 2 samples is left out
    at threshold 3 and written at threshold 2. *)
Theorem report_rows :
  (∀ (insmap : gmap Z (gmap string (list string))) (threshold : Z)
     (written : list string),
     (∀ k, is_Some (insmap !! k) → is_int (k + 1)) →
     writeInsMap insmap threshold written →
     ∃ rows : list (Z * string * list string),
       written = ins_header :: (row_line (λ v, v) <$> rows) ∧
       (∀ row, row ∈ rows ↔ listed insmap threshold row) ∧
       NoDup rows ∧ Sorted Z.le (rows.*1.*1)) ∧
  (∀ (delmap : gmap Z (gmap Z (list string))) (threshold : Z)
     (written : list string),
     (∀ k, is_Some (delmap !! k) → is_int (k + 1)) →
     writeDelMap delmap threshold written →
     ∃ rows : list (Z * Z * list string),
       written = del_header :: (row_line Itoa <$> rows) ∧
       (∀ row, row ∈ rows ↔ listed delmap threshold row) ∧
       NoDup rows ∧ Sorted Z.le (rows.*1.*1)) ∧
  (∀ insmap threshold,
     writeInsMap insmap threshold (writeInsMap_run insmap threshold)) ∧
  (∀ delmap threshold,
     writeDelMap delmap threshold (writeDelMap_run delmap threshold)) ∧
  (∀ written,
     writeInsMap {[5 := {["AC"%string := ["s1"; "s2"]%string]}]} 3 written →
     written = [ins_header]) ∧
  (∀ written,
     writeInsMap {[5 := {["AC"%string := ["s1"; "s2"]%string]}]} 2 written →
     written = [ins_header; "6" +:+ tab +:+ "AC" +:+ tab +:+ "s1|s2" +:+ newline]).
Proof.
  split; [intros insmap threshold written; apply writeMap_listed|].
  split; [intros delmap threshold written; apply writeMap_listed|].
  split; [intros insmap threshold; apply writeMap_run_spec|].
  split; [intros delmap threshold; apply writeMap_run_spec|].
  assert (Hint : ∀ k : Z,
            is_Some (({[5 := {["AC"%string := ["s1"; "s2"]%string]}]}
                        : gmap Z (gmap string (list string))) !! k) →
            is_int (k + 1)).
  { intros k [inner [<- _]%lookup_singleton_Some].
    unfold is_int, min_int, max_int. lia. }
  split; intros written Hw;
    apply writeMap_listed in Hw as (rows & -> & Hel & Hnd & _); try done.
  - rewrite (rows_none rows); [done|]. intros row.
    rewrite Hel, listed_singleton. vm_compute. naive_solver.
  - rewrite (rows_singleton rows (5, "AC"%string, ["s1"; "s2"]%string));
      [done | done |].
    intros row. rewrite Hel, listed_singleton. split; [naive_solver|].
    intros ->. split; [done|]. vm_compute. discriminate.
Qed.

Lemma report_rows_witness :
  ∃ rows : list (Z * Z * list string),
    writeDelMap_run {[17 := {[4 := ["s1"; "s2"]%string]}]} 2
    = del_header :: (row_line Itoa <$> rows) ∧
    (∀ row, row ∈ rows
            ↔ listed {[17 := {[4 := ["s1"; "s2"]%string]}]} 2 row) ∧
    NoDup rows ∧ Sorted Z.le (rows.*1.*1).
Proof.
  destruct report_rows as (_ & Hdel & _ & Hrun & _).
  apply (Hdel {[17 := {[4 := ["s1"; "s2"]%string]}]} 2).
  - intros k [inner [<- _]%lookup_singleton_Some].
    unfold is_int, min_int, max_int. lia.
  - apply Hrun.
Defined.

(** * Further properties *)

(** ** The consensus byte and the order of the map *)

Lemma byte_val_inj (a b : byte) : byte_val a = byte_val b → a = b.
Proof.
  unfold byte_val. intros Hab. apply Z2N.inj_iff in Hab; try lia.
  rewrite !N2Z.id in Hab.
  by rewrite <- (ascii_N_embedding a), <- (ascii_N_embedding b), Hab.
Qed.

Lemma is_max_of_unique (s : list byte) (m1 m2 : byte) :
  is_max_of s m1 → is_max_of s m2 → m1 = m2.
Proof.
  intros [Hin1 Hmax1] [Hin2 Hmax2]. apply byte_val_inj.
  specialize (Hmax1 m2 Hin2). specialize (Hmax2 m1 Hin1). lia.
Qed.

Lemma nucFromSet_same_elements (ss1 ss2 : list byte) :
  NoDup ss1 → NoDup ss2 → (∀ b, b ∈ ss1 ↔ b ∈ ss2) →
  nucFromSet ss1 = nucFromSet ss2.
Proof.
  intros Hnd1 Hnd2 Hel.
  pose proof (NoDup_Permutation ss1 ss2 Hnd1 Hnd2 Hel) as Hperm.
  assert (Hlen : length (filter (λ e, IsLetter e) ss1)
                 = length (filter (λ e, IsLetter e) ss2)) by (by rewrite Hperm).
  unfold nucFromSet. rewrite !count_letters_filter by done.
  rewrite Hlen. case_bool_decide; [done|].
  destruct ss1 as [|x ss1].
  - apply Permutation_nil_l in Hperm. by subst.
  - apply (is_max_of_unique (x :: ss1)).
    + by apply max_byte_is_max.
    + apply (is_max_of_elements (x :: ss1) ss2).
      * intros b. by rewrite Hel.
      * apply max_byte_is_max. intros ->.
        by apply Permutation_nil_r in Hperm.
Qed.

Lemma getNucFromSite_run_unique (s : list byte) (nuc : byte) :
  getNucFromSite s nuc → nuc = getNucFromSite_run s.
Proof.
  intros (ss & Hset & ->).
  destruct (getNucFromSite_run_spec s) as (ss' & Hset' & ->).
  destruct (getSetFromSlice_elements s ss Hset) as [Hnd Hel].
  destruct (getSetFromSlice_elements s ss' Hset') as [Hnd' Hel'].
  apply nucFromSet_same_elements; try done.
  intros b. by rewrite Hel, Hel'.
Qed.

(** X1.  The byte [getNucFromSite] returns does not depend on the order in
    which Go enumerates the map of [getSetFromSlice]: every run returns the
    byte of the run that follows [map_to_list]. *)
Theorem getNucFromSite_order_independent (s : list byte) (nuc : byte) :
  getNucFromSite s nuc ↔ nuc = getNucFromSite_run s.
Proof.
  split; [apply getNucFromSite_run_unique|].
  intros ->. apply getNucFromSite_run_spec.
Qed.

Lemma site_map_same_elements (s1 s2 : list byte) :
  (∀ b, b ∈ s1 ↔ b ∈ s2) → site_map s1 = site_map s2.
Proof.
  intros Hel. apply map_eq. intros b. unfold site_map.
  rewrite !site_map_lookup.
  destruct (decide (b ∈ s1)) as [Hin|Hnin], (decide (b ∈ s2)) as [Hin'|Hnin'];
    try done.
  - by destruct Hnin'; apply Hel.
  - by destruct Hnin; apply Hel.
Qed.

Lemma getNucFromSite_run_same_elements (s1 s2 : list byte) :
  (∀ b, b ∈ s1 ↔ b ∈ s2) → getNucFromSite_run s1 = getNucFromSite_run s2.
Proof.
  intros Hel. unfold getNucFromSite_run.
  by rewrite (site_map_same_elements s1 s2 Hel).
Qed.

(** X2.  The consensus byte depends on the set of the bytes of the column
    only: two columns with the same bytes, in any order and any number of
    copies, get the same byte. *)
Theorem getNucFromSite_same_bytes (s1 s2 : list byte) (nuc : byte) :
  (∀ b, b ∈ s1 ↔ b ∈ s2) →
  getNucFromSite s1 nuc ↔ getNucFromSite s2 nuc.
Proof.
  intros Hel. unfold getNucFromSite, getSetFromSlice.
  by rewrite (site_map_same_elements s1 s2 Hel).
Qed.

Lemma getNucFromSite_same_bytes_witness :
  getNucFromSite (bytes "A*A-") "A"%char
  ↔ getNucFromSite (bytes "-*A") "A"%char.
Proof.
  apply (getNucFromSite_same_bytes (bytes "A*A-") (bytes "-*A") "A"%char).
  intros b. unfold bytes. simpl. rewrite !elem_of_cons, !elem_of_nil.
  naive_solver.
Defined.

(** X3.  A letter overrides gaps and placeholders: in a column that holds
    one letter and, besides it, only '*' and '-', the consensus byte is that
    letter. *)
Theorem getNucFromSite_letter_wins (s : list byte) (a nuc : byte) :
  a ∈ s → IsLetter a →
  (∀ b, b ∈ s → b = a ∨ b = "*"%char ∨ b = "-"%char) →
  getNucFromSite s nuc → nuc = a.
Proof.
  intros Ha HLa Hs Hnuc.
  assert (Hne : s ≠ []) by (intros ->; by apply elem_of_nil in Ha).
  destruct (getNucFromSite_cases s nuc Hne Hnuc) as [_ Hmax].
  assert (Hone : ∀ b, b ∈ s → IsLetter b → b = a).
  { intros b Hb HLb. destruct (Hs b Hb) as [->|[->| ->]]; done. }
  destruct Hmax as [Hin Hmax].
  { intros (x & y & Hx & Hy & Hxy & HLx & HLy).
    apply Hxy. by rewrite (Hone x Hx HLx), (Hone y Hy HLy). }
  specialize (Hmax a Ha).
  assert (65 ≤ byte_val a).
  { unfold IsLetter in HLa. apply bool_decide_unpack in HLa. lia. }
  destruct (Hs nuc Hin) as [->|[->| ->]]; [done| |].
  - change (byte_val "*"%char) with 42 in Hmax. lia.
  - change (byte_val "-"%char) with 45 in Hmax. lia.
Qed.

Lemma getNucFromSite_letter_wins_witness :
  getNucFromSite_run (bytes "*-G*") = "G"%char.
Proof.
  apply (getNucFromSite_letter_wins (bytes "*-G*") "G"%char
           (getNucFromSite_run (bytes "*-G*"))).
  - unfold bytes. simpl. rewrite !elem_of_cons. naive_solver.
  - exact I.
  - intros b. unfold bytes. simpl. rewrite !elem_of_cons, elem_of_nil.
    naive_solver.
  - apply getNucFromSite_run_spec.
Defined.

(** ** Flattening a block *)

Lemma col_cons (j : nat) (row : list byte) (block : list (list byte)) :
  col j (row :: block)
  = match row !! j with
    | Some b => b :: col j block
    | None => col j block
    end.
Proof. done. Qed.

Lemma site_of_col (block : list (list byte)) (j : nat) :
  Forall (λ row, (j < length row)%nat) block →
  site_of block (Z.of_nat j) = Returns (col j block).
Proof.
  induction 1 as [|row block Hrow Hrest IH]; [done|].
  cbn [site_of]. rewrite col_cons, Nat2Z.id.
  destruct (lookup_lt_is_Some_2 row j Hrow) as [b ->].
  by rewrite IH.
Qed.

Lemma site_of_short (block : list (list byte)) (j : nat) :
  Exists (λ row, (length row ≤ j)%nat) block →
  site_of block (Z.of_nat j) = Panics.
Proof.
  induction 1 as [row block Hrow | row block Hex IH]; cbn [site_of];
    rewrite Nat2Z.id.
  - by rewrite (lookup_ge_None_2 row j).
  - destruct (row !! j); [|done]. by rewrite IH.
Qed.

Lemma seqZ_of_nat (n : nat) : seqZ 0 (Z.of_nat n) = Z.of_nat <$> seq 0 n.
Proof.
  unfold seqZ. rewrite Nat2Z.id. apply list_fmap_ext. intros _ j _. lia.
Qed.

(** Every run of the loop ends as the run that follows [map_to_list]. *)
Lemma flatten_loop_iff (block : list (list byte)) (js : list Z)
    (o : outcome (list byte)) :
  flatten_loop block js o ↔ o = flatten_loop_run block js.
Proof.
  revert o. induction js as [|j js IH]; intros o; cbn [flatten_loop flatten_loop_run];
    [done|].
  destruct (site_of block j) as [site|]; [|done]. split.
  - intros (nuc & o' & Hnuc & Hloop & ->).
    apply IH in Hloop as ->.
    by rewrite (getNucFromSite_run_unique site nuc Hnuc).
  - intros ->. exists (getNucFromSite_run site), (flatten_loop_run block js).
    split; [apply getNucFromSite_run_spec|]. split; [by apply IH | done].
Qed.

Lemma checkAndGetFlattenedSeq_iff (block : list (list byte))
    (o : outcome (list byte)) :
  checkAndGetFlattenedSeq block o ↔ o = checkAndGetFlattenedSeq_run block.
Proof.
  destruct block as [|row0 rest]; [done|]. apply flatten_loop_iff.
Qed.

Lemma flatten_loop_run_cols (block : list (list byte)) (n : nat) :
  Forall (λ row, (n ≤ length row)%nat) block →
  ∀ a k, (a + k ≤ n)%nat →
    flatten_loop_run block (Z.of_nat <$> seq a k)
    = Returns ((λ j, getNucFromSite_run (col j block)) <$> seq a k).
Proof.
  intros Hrows a k. revert a. induction k as [|k IH]; intros a Hak; [done|].
  cbn [seq fmap list_fmap flatten_loop_run].
  rewrite site_of_col.
  - rewrite IH by lia. done.
  - eapply Forall_impl; [exact Hrows|]. intros row Hrow. simpl in *. lia.
Qed.

Lemma flatten_loop_run_short (block : list (list byte)) (j : nat) :
  Exists (λ row, (length row ≤ j)%nat) block →
  ∀ a k, (a ≤ j < a + k)%nat →
    flatten_loop_run block (Z.of_nat <$> seq a k) = Panics.
Proof.
  intros Hshort a k. revert a. induction k as [|k IH]; intros a Hak; [lia|].
  cbn [seq fmap list_fmap flatten_loop_run].
  destruct (decide (a = j)) as [->|Hne].
  - by rewrite site_of_short.
  - destruct (site_of block (Z.of_nat a)); [|done]. cbn. by rewrite IH by lia.
Qed.

(** X4.  When no row of the block is shorter than the first, every run of
    [checkAndGetFlattenedSeq] returns the same sequence: it has the length
    of the first row, and its byte at [j] is the consensus byte of column
    [j].  What the longer rows hold beyond that length is not read. *)
Theorem checkAndGetFlattenedSeq_columns (row0 : list byte)
    (rest : list (list byte)) :
  Forall (λ row, (length row0 ≤ length row)%nat) rest →
  ∃ seq : list byte,
    (∀ o, checkAndGetFlattenedSeq (row0 :: rest) o ↔ o = Returns seq) ∧
    length seq = length row0 ∧
    ∀ j : nat, (j < length row0)%nat →
      seq !! j = Some (getNucFromSite_run (col j (row0 :: rest))).
Proof.
  intros Hrest.
  assert (Hrows : Forall (λ row, (length row0 ≤ length row)%nat) (row0 :: rest))
    by (by constructor).
  pose proof (flatten_loop_run_cols (row0 :: rest) (length row0) Hrows
                0 (length row0) ltac:(lia)) as Hrun.
  eexists. split; [|split].
  - intros o. rewrite checkAndGetFlattenedSeq_iff.
    unfold checkAndGetFlattenedSeq_run, len. by rewrite seqZ_of_nat, Hrun.
  - by rewrite length_fmap, length_seq.
  - intros j Hj. rewrite list_lookup_fmap, lookup_seq_lt by done. done.
Qed.

Lemma checkAndGetFlattenedSeq_columns_witness :
  ∃ seq : list byte,
    (∀ o, checkAndGetFlattenedSeq [bytes "A*-"; bytes "AC*T"] o
          ↔ o = Returns seq) ∧
    length seq = 3%nat ∧
    ∀ j : nat, (j < 3)%nat →
      seq !! j
      = Some (getNucFromSite_run (col j [bytes "A*-"; bytes "AC*T"])).
Proof.
  apply (checkAndGetFlattenedSeq_columns (bytes "A*-") [bytes "AC*T"]).
  repeat constructor.
Defined.

(** X5.  A row shorter than the first makes every run of
    [checkAndGetFlattenedSeq] panic, and so does the empty block. *)
Theorem checkAndGetFlattenedSeq_ragged (block : list (list byte))
    (o : outcome (list byte)) :
  (block = [] ∨
   ∃ row0 rest, block = row0 :: rest ∧
                Exists (λ row, (length row < length row0)%nat) rest) →
  checkAndGetFlattenedSeq block o ↔ o = Panics.
Proof.
  intros [->|(row0 & rest & -> & Hshort)]; [done|].
  rewrite checkAndGetFlattenedSeq_iff. unfold checkAndGetFlattenedSeq_run, len.
  rewrite seqZ_of_nat.
  apply Exists_exists in Hshort as (row & Hin & Hlen).
  rewrite (flatten_loop_run_short (row0 :: rest) (length row)); [done| |lia].
  apply Exists_cons_tl, Exists_exists. by exists row.
Qed.

Lemma checkAndGetFlattenedSeq_ragged_witness :
  checkAndGetFlattenedSeq [bytes "ACG"; bytes "AC"] Panics.
Proof.
  apply (checkAndGetFlattenedSeq_ragged [bytes "ACG"; bytes "AC"] Panics);
    [|reflexivity].
  right. exists (bytes "ACG"), [bytes "AC"]. split; [reflexivity|].
  apply Exists_cons_hd. simpl. lia.
Defined.

Lemma getNucFromSite_run_constant (s : list byte) (b : byte) :
  s ≠ [] → (∀ x, x ∈ s → x = b) → getNucFromSite_run s = b.
Proof.
  intros Hne Hall.
  destruct (getNucFromSite_cases s _ Hne (getNucFromSite_run_spec s))
    as [_ Hmax].
  destruct Hmax as [Hin _]; [|by apply Hall].
  intros (x & y & Hx & Hy & Hxy & _). apply Hxy.
  by rewrite (Hall x Hx), (Hall y Hy).
Qed.

Lemma col_replicate (j m : nat) (row : list byte) (b : byte) :
  row !! j = Some b → col j (replicate m row) = replicate m b.
Proof.
  intros Hb. induction m as [|m IH]; [done|].
  cbn [replicate]. by rewrite col_cons, Hb, IH.
Qed.

(** X6.  Flattening copies of one row gives the row back: a block of one or
    more identical expanded sequences flattens to that sequence. *)
Theorem checkAndGetFlattenedSeq_identical (k : nat) (row : list byte)
    (o : outcome (list byte)) :
  checkAndGetFlattenedSeq (replicate (S k) row) o ↔ o = Returns row.
Proof.
  rewrite checkAndGetFlattenedSeq_iff.
  unfold checkAndGetFlattenedSeq_run, len. cbn [replicate].
  change (row :: replicate k row) with (replicate (S k) row).
  rewrite seqZ_of_nat, (flatten_loop_run_cols _ (length row)); [|..|lia].
  - replace ((λ j, getNucFromSite_run (col j (replicate (S k) row)))
               <$> seq 0 (length row)) with row; [done|].
    apply list_eq. intros j. rewrite list_lookup_fmap.
    destruct (row !! j) as [b|] eqn:Hb.
    + rewrite lookup_seq_lt by (by apply lookup_lt_Some in Hb).
      cbn [fmap option_fmap option_map Nat.add].
      rewrite (col_replicate j (S k) row b Hb). f_equal. symmetry.
      apply getNucFromSite_run_constant; [done|].
      by intros x ?%elem_of_replicate_inv.
    + by rewrite lookup_seq_ge by (by apply lookup_ge_None in Hb).
  - apply Forall_forall. by intros x ->%elem_of_replicate_inv.
Qed.

(** X7.  The order of the rows does not matter: two blocks of rows of one
    length [n] that are permutations of each other flatten to the same
    sequence. *)
Theorem checkAndGetFlattenedSeq_row_order (n : nat)
    (block1 block2 : list (list byte)) (o : outcome (list byte)) :
  Forall (λ row, length row = n) block1 →
  block1 ≡ₚ block2 →
  checkAndGetFlattenedSeq block1 o ↔ checkAndGetFlattenedSeq block2 o.
Proof.
  intros Hrect Hperm.
  assert (Hrect2 : Forall (λ row, length row = n) block2) by (by rewrite <- Hperm).
  rewrite !checkAndGetFlattenedSeq_iff.
  destruct block1 as [|r1 rest1], block2 as [|r2 rest2]; [done|..].
  - by apply Permutation_nil_l in Hperm.
  - by apply Permutation_nil_r in Hperm.
  - unfold checkAndGetFlattenedSeq_run, len.
    pose proof (Forall_inv Hrect) as Hr1. pose proof (Forall_inv Hrect2) as Hr2.
    simpl in Hr1, Hr2. rewrite Hr1, Hr2, seqZ_of_nat.
    rewrite !(flatten_loop_run_cols _ n); try lia.
    + replace ((λ j, getNucFromSite_run (col j (r1 :: rest1))) <$> seq 0 n)
        with ((λ j, getNucFromSite_run (col j (r2 :: rest2))) <$> seq 0 n);
        [done|].
      apply list_fmap_ext. intros _ j _.
      apply getNucFromSite_run_same_elements. intros b. unfold col.
      by rewrite Hperm.
    + eapply Forall_impl; [exact Hrect2|]. simpl. lia.
    + eapply Forall_impl; [exact Hrect|]. simpl. lia.
Qed.

Lemma checkAndGetFlattenedSeq_row_order_witness :
  checkAndGetFlattenedSeq [bytes "A*"; bytes "*C"] (Returns (bytes "AC"))
  ↔ checkAndGetFlattenedSeq [bytes "*C"; bytes "A*"] (Returns (bytes "AC")).
Proof.
  apply (checkAndGetFlattenedSeq_row_order 2 [bytes "A*"; bytes "*C"]
           [bytes "*C"; bytes "A*"]).
  - repeat constructor.
  - apply perm_swap.
Defined.

(** ** The sequence of a block of records *)

Lemma alloc_block_nonneg (n : nat) (refLen : Z) :
  0 ≤ refLen →
  alloc_block n refLen
  = Returns (replicate n (replicate (Z.to_nat refLen) Ascii.zero)).
Proof.
  intros HL. induction n as [|n IH]; [done|].
  cbn [alloc_block]. by rewrite make_filled_nonneg, IH.
Qed.

Lemma getOneLine_error (rec : Record_) (refLen : Z) (x : list byte)
    (e : string) :
  getOneLine rec refLen = Returns (x, Some e) →
  x = [] ∧ e = "unmapped read"%string ∧ Pos rec < 0.
Proof.
  unfold getOneLine. case_bool_decide as HPos; [by intros [= <- <-]|].
  destruct (make_filled (Pos rec) "*"%char) as [arr|]; [|done]. cbn.
  destruct (expand_loop _ _ _ _) as [[[arr' q] r]|]; [|done]. cbn.
  by destruct (make_filled _ _).
Qed.

Lemma getOneLine_layout (rec : Record_) (refLen : Z) :
  fits_reference refLen rec → refLen ≤ max_int →
  getOneLine rec refLen
  = Returns (replicate (Z.to_nat (Pos rec)) "*"%char
             ++ emissions (Seq rec) 0 (Cigar rec)
             ++ replicate (Z.to_nat (refLen - Pos rec - ref_span (Cigar rec)))
                  "*"%char,
             None).
Proof.
  intros (HPos & Hok & HS & Hroom) HL.
  pose proof (ref_span_nonneg _ _ _ Hok) as Hnn.
  pose proof (length_emissions _ _ 0 ltac:(lia) Hok) as Hem.
  destruct (expand_loop_fits (Seq rec) (Cigar rec) HS
              (replicate (Z.to_nat (Pos rec)) "*"%char) 0 (Pos rec))
    as [q' Hloop]; try done; [lia|].
  set (body := replicate (Z.to_nat (Pos rec)) "*"%char
               ++ emissions (Seq rec) 0 (Cigar rec)) in *.
  assert (Hbody : len body = Pos rec + ref_span (Cigar rec)).
  { unfold body, len in *. rewrite length_app, length_replicate. lia. }
  unfold getOneLine. rewrite bool_decide_eq_false_2 by lia.
  rewrite make_filled_nonneg by done. cbn. rewrite Hloop. cbn.
  rewrite Hbody, int_sub_exact
    by (unfold is_int, min_int, max_int in *; lia).
  rewrite make_filled_nonneg by lia. cbn.
  unfold body. rewrite <- app_assoc.
  by replace (refLen - (Pos rec + ref_span (Cigar rec)))
    with (refLen - Pos rec - ref_span (Cigar rec)) by lia.
Qed.

Lemma getOneLine_expands (rec : Record_) (refLen : Z) :
  fits_reference refLen rec → refLen ≤ max_int →
  ∃ out, getOneLine rec refLen = Returns (out, None) ∧ len out = refLen.
Proof.
  intros Hfits HL. eexists. split; [by apply getOneLine_layout|].
  destruct Hfits as (HPos & Hok & HS & Hroom).
  pose proof (ref_span_nonneg _ _ _ Hok) as Hnn.
  pose proof (length_emissions _ _ 0 ltac:(lia) Hok) as Hem.
  unfold len in *. rewrite !length_app, !length_replicate. lia.
Qed.

(** The loop over the records when every record expands. *)
Lemma expand_lines_all (refLen : Z) (records : list Record_)
    (temps : list (list byte)) :
  Forall2 (λ rec temp, getOneLine rec refLen = Returns (temp, None))
          records temps →
  ∀ (i : nat) (block : list (list byte)),
    length block = (i + length records)%nat →
    expand_lines refLen i records block = Returns (inl (take i block ++ temps)).
Proof.
  induction 1 as [|rec temp records temps Hrec Hrest IH]; intros i block Hlen.
  - cbn. rewrite app_nil_r, take_ge; [done|]. simpl in Hlen. lia.
  - cbn [expand_lines]. rewrite Hrec. cbn. simpl in Hlen.
    rewrite IH by (rewrite length_insert; lia).
    rewrite (take_S_r _ _ temp) by (apply list_lookup_insert_eq; lia).
    rewrite take_insert_ge by lia. by rewrite <- app_assoc.
Qed.

(** The loop over the records when the first record that does not expand is
    rejected with an error. *)
Lemma expand_lines_error (refLen : Z) (pre : list Record_)
    (temps : list (list byte)) (bad : Record_) (post : list Record_)
    (x : list byte) (e : string) :
  Forall2 (λ rec temp, getOneLine rec refLen = Returns (temp, None))
          pre temps →
  getOneLine bad refLen = Returns (x, Some e) →
  ∀ (i : nat) (block : list (list byte)),
    expand_lines refLen i (pre ++ bad :: post) block = Returns (inr e).
Proof.
  intros Hpre Hbad.
  induction Hpre as [|rec temp pre temps Hrec Hrest IH]; intros i block.
  - cbn. by rewrite Hbad.
  - cbn. rewrite Hrec. cbn. apply IH.
Qed.

Lemma fits_expand_all (refLen : Z) (records : list Record_) :
  Forall (fits_reference refLen) records → refLen ≤ max_int →
  ∃ temps,
    Forall2 (λ rec temp, getOneLine rec refLen = Returns (temp, None))
            records temps ∧
    Forall (λ temp, len temp = refLen) temps.
Proof.
  intros Hfits HL. induction Hfits as [|rec records Hrec Hrest IH].
  - exists []. by split.
  - destruct IH as (temps & Hall & Hlens).
    destruct (getOneLine_expands rec refLen Hrec HL) as (out & Hout & Hlen).
    exists (out :: temps). split; by constructor.
Qed.

Lemma getSeqFromBlock_iff (records : list Record_) (refLen : Z)
    (o : outcome (list byte * option string)) :
  getSeqFromBlock records refLen o ↔ o = getSeqFromBlock_run records refLen.
Proof.
  unfold getSeqFromBlock, getSeqFromBlock_run.
  destruct (alloc_block _ _ ≫= _) as [[block|e]|]; cbn; [|done..].
  case_bool_decide; [|by destruct (block !! 0%nat)].
  split.
  - intros (o' & Hflat & ->). by apply checkAndGetFlattenedSeq_iff in Hflat as ->.
  - intros ->. eexists. split; [by apply checkAndGetFlattenedSeq_iff | done].
Qed.

(** X8.  The single-record path: for a block of one record and a reference
    length that is not negative, [getSeqFromBlock] returns what
    [getOneLine] returns for the record, whether a sequence, the error or a
    panic; nothing is flattened. *)
Theorem getSeqFromBlock_single (rec : Record_) (refLen : Z)
    (o : outcome (list byte * option string)) :
  0 ≤ refLen →
  getSeqFromBlock [rec] refLen o ↔ o = getOneLine rec refLen.
Proof.
  intros HL. rewrite getSeqFromBlock_iff. unfold getSeqFromBlock_run.
  rewrite alloc_block_nonneg by done. cbn.
  destruct (getOneLine rec refLen) as [[temp [e|]]|] eqn:Hline; cbn; [|done..].
  by destruct (getOneLine_error rec refLen temp e Hline) as (-> & _).
Qed.

Lemma getSeqFromBlock_single_witness :
  getSeqFromBlock
    [mkRecord "q1" 1 (bytes "AC") [mkCigarOp CigarMatch 2] 0] 4
    (Returns (bytes "*AC*", None)).
Proof.
  apply (getSeqFromBlock_single
           (mkRecord "q1" 1 (bytes "AC") [mkCigarOp CigarMatch 2] 0) 4);
    [lia | reflexivity].
Defined.

(** X9.  The block that [groupSamRecords] sends for a stream without
    records makes [getSeqFromBlock] panic, whatever the reference length:
    the block is empty and [block[0]] is out of range. *)
Theorem getSeqFromBlock_empty_stream (block : list Record_) (refLen : Z)
    (o : outcome (list byte * option string)) :
  block ∈ groupSamRecords [] →
  getSeqFromBlock block refLen o ↔ o = Panics.
Proof.
  intros Hin. apply list_elem_of_singleton in Hin as ->.
  by rewrite getSeqFromBlock_iff.
Qed.

Lemma getSeqFromBlock_empty_stream_witness : getSeqFromBlock [] 100 Panics.
Proof.
  apply (getSeqFromBlock_empty_stream [] 100 Panics); [|reflexivity].
  apply list_elem_of_singleton. reflexivity.
Defined.

(** X10.  One unmapped record fails the block: when the records before it
    expand, a record with a negative [Pos] makes [getSeqFromBlock] return
    the empty sequence with the error "unmapped read"; the records after it
    are not read. *)
Theorem getSeqFromBlock_unmapped (pre : list Record_) (bad : Record_)
    (post : list Record_) (refLen : Z)
    (o : outcome (list byte * option string)) :
  0 ≤ refLen → refLen ≤ max_int →
  Forall (fits_reference refLen) pre → Pos bad < 0 →
  getSeqFromBlock (pre ++ bad :: post) refLen o
  ↔ o = Returns ([], Some "unmapped read"%string).
Proof.
  intros HL0 HL Hpre Hbad. rewrite getSeqFromBlock_iff.
  unfold getSeqFromBlock_run. rewrite alloc_block_nonneg by done. cbn.
  destruct (fits_expand_all refLen pre Hpre HL) as (temps & Hall & _).
  rewrite (expand_lines_error refLen pre temps bad post []
             "unmapped read"%string Hall); [done|].
  unfold getOneLine. by rewrite bool_decide_eq_true_2.
Qed.

Lemma getSeqFromBlock_unmapped_witness :
  getSeqFromBlock
    ([mkRecord "q1" 1 (bytes "AC") [mkCigarOp CigarMatch 2] 0]
       ++ mkRecord "q1" (-1) (bytes "AC") [mkCigarOp CigarMatch 2] 0
       :: [mkRecord "q1" 0 (bytes "AC") [mkCigarOp CigarBack 2] 0]) 4
    (Returns ([], Some "unmapped read"%string)).
Proof.
  apply (getSeqFromBlock_unmapped
           [mkRecord "q1" 1 (bytes "AC") [mkCigarOp CigarMatch 2] 0]
           (mkRecord "q1" (-1) (bytes "AC") [mkCigarOp CigarMatch 2] 0)
           [mkRecord "q1" 0 (bytes "AC") [mkCigarOp CigarBack 2] 0] 4);
    [lia | vm_compute; discriminate | | simpl; lia | reflexivity].
  repeat constructor; simpl; try lia; vm_compute; discriminate.
Defined.

(** X11.  A block of records that all fit the reference gets a sequence of
    exactly [refLen] bytes and no error, from every run, whether the block
    has one record or is flattened. *)
Theorem getSeqFromBlock_length (records : list Record_) (refLen : Z) :
  records ≠ [] → Forall (fits_reference refLen) records → refLen ≤ max_int →
  ∃ seq : list byte,
    (∀ o, getSeqFromBlock records refLen o ↔ o = Returns (seq, None)) ∧
    len seq = refLen.
Proof.
  intros Hne Hfits HL.
  destruct (fits_expand_all refLen records Hfits HL) as (temps & Hall & Hlens).
  assert (HL0 : 0 ≤ refLen).
  { destruct Hfits as [|rec records (HPos & Hok & _ & Hroom) _]; [done|].
    pose proof (ref_span_nonneg _ _ _ Hok). lia. }
  assert (Hrun : (block ← alloc_block (length records) refLen;
                  expand_lines refLen 0 records block) = Returns (inl temps)).
  { rewrite alloc_block_nonneg by done. cbn.
    rewrite (expand_lines_all refLen records temps Hall);
      [done | by rewrite length_replicate]. }
  destruct temps as [|row0 rest].
  { apply Forall2_nil_inv_r in Hall. done. }
  apply Forall_cons in Hlens as [Hrow0 Hrest].
  destruct (decide (len (row0 :: rest) > 1)) as [Hmany|Hone].
  - exists ((λ j, getNucFromSite_run (col j (row0 :: rest)))
              <$> seq 0 (length row0)).
    split.
    + intros o. rewrite getSeqFromBlock_iff. unfold getSeqFromBlock_run.
      rewrite Hrun. cbn. rewrite bool_decide_eq_true_2 by done.
      unfold checkAndGetFlattenedSeq_run, len. rewrite seqZ_of_nat.
      rewrite (flatten_loop_run_cols _ (length row0)); [done| |lia].
      constructor; [done|]. eapply Forall_impl; [exact Hrest|].
      unfold len in *. simpl. lia.
    + unfold len in *. by rewrite length_fmap, length_seq.
  - exists row0. split; [|done].
    intros o. rewrite getSeqFromBlock_iff. unfold getSeqFromBlock_run.
    rewrite Hrun. cbn. by rewrite bool_decide_eq_false_2 by done.
Qed.

Lemma getSeqFromBlock_length_witness :
  ∃ seq : list byte,
    (∀ o, getSeqFromBlock
            [mkRecord "q1" 0 (bytes "AC") [mkCigarOp CigarMatch 2] 0;
             mkRecord "q1" 2 (bytes "GT") [mkCigarOp CigarMatch 2] 0] 5 o
          ↔ o = Returns (seq, None)) ∧
    len seq = 5.
Proof.
  apply (getSeqFromBlock_length
           [mkRecord "q1" 0 (bytes "AC") [mkCigarOp CigarMatch 2] 0;
            mkRecord "q1" 2 (bytes "GT") [mkCigarOp CigarMatch 2] 0] 5).
  - discriminate.
  - repeat constructor; simpl; try lia; vm_compute; discriminate.
  - vm_compute. discriminate.
Defined.

(** ** More on the expansion of one record *)

Lemma call_op_alphabet ty q r n (S : list byte) q' r' ext :
  call_op getCigarOperationMap (CigarOpType_String ty) q r n S
  = Returns (q', r', ext) →
  Forall (λ b, b = "-"%char ∨ b ∈ S) ext.
Proof.
  assert (Hslice : ∀ lo hi ext0,
            slice S lo hi = Returns ext0 → Forall (λ b, b = "-"%char ∨ b ∈ S) ext0).
  { intros lo hi ext0. unfold slice. case_bool_decide; [|done].
    intros [= <-]. apply Forall_forall. intros b Hb. right.
    by apply subseteq_take, subseteq_drop in Hb. }
  assert (Hgaps : ∀ k ext0,
            make_filled k "-"%char = Returns ext0 →
            Forall (λ b, b = "-"%char ∨ b ∈ S) ext0).
  { intros k ext0. unfold make_filled. case_bool_decide; [|done].
    intros [= <-]. apply Forall_forall. intros b Hb%elem_of_replicate_inv.
    by left. }
  unfold call_op. destruct ty; cbn [CigarOpType_String];
    rewrite ?lookup_M, ?lookup_I, ?lookup_D, ?lookup_N, ?lookup_S, ?lookup_H,
      ?lookup_P, ?lookup_Eq, ?lookup_X, ?lookup_B, ?lookup_other;
    unfold op_M, op_I, op_D, op_N, op_S, op_H, op_P, op_Eq, op_X;
    try done; try (by intros [= <- <- <-]).
  all: try (destruct (slice S q (int_add q n)) as [ext0|] eqn:Hs; [|done];
            cbn; intros [= <- <- <-]; by eapply Hslice).
  all: destruct (make_filled n "-"%char) as [ext0|] eqn:Hm; [|done];
       cbn; intros [= <- <- <-]; by eapply Hgaps.
Qed.

Lemma expand_loop_alphabet (S : list byte) (ops : list CigarOp) :
  ∀ arr q r arr' q' r',
    expand_loop getCigarOperationMap S ops (arr, q, r) = Returns (arr', q', r') →
    Forall (λ b, b = "*"%char ∨ b = "-"%char ∨ b ∈ S) arr →
    Forall (λ b, b = "*"%char ∨ b = "-"%char ∨ b ∈ S) arr'.
Proof.
  induction ops as [|op ops IH]; intros arr q r arr' q' r'; cbn [expand_loop].
  - by intros [= <- <- <-].
  - destruct (call_op _ _ _ _ _ _) as [[[q1 r1] ext]|] eqn:Hcall; [|done].
    cbn. intros Hloop Harr. apply (IH _ _ _ _ _ _ Hloop).
    apply Forall_app. split; [done|].
    apply call_op_alphabet in Hcall.
    eapply Forall_impl; [exact Hcall|]. naive_solver.
Qed.

(** X12.  Whatever the record, a sequence [getOneLine] returns holds only
    placeholders '*', gaps '-' and bytes of the record's query sequence. *)
Theorem getOneLine_alphabet (rec : Record_) (refLen : Z) (out : list byte)
    (b : byte) :
  getOneLine rec refLen = Returns (out, None) → b ∈ out →
  b = "*"%char ∨ b = "-"%char ∨ b ∈ Seq rec.
Proof.
  unfold getOneLine. case_bool_decide; [done|].
  destruct (make_filled (Pos rec) "*"%char) as [arr|] eqn:Hleft; [|done]. cbn.
  destruct (expand_loop _ _ _ _) as [[[arr' q] r]|] eqn:Hloop; [|done]. cbn.
  destruct (make_filled (int_sub _ _) _) as [pad|] eqn:Hright; [|done]. cbn.
  intros [= <-] Hb.
  assert (Hstars : ∀ k l, make_filled k "*"%char = Returns l →
            Forall (λ b, b = "*"%char ∨ b = "-"%char ∨ b ∈ Seq rec) l).
  { intros k l. unfold make_filled. case_bool_decide; [|done].
    intros [= <-]. apply Forall_forall. intros x Hx%elem_of_replicate_inv.
    by left. }
  pose proof (expand_loop_alphabet _ _ _ _ _ _ _ _ Hloop (Hstars _ _ Hleft))
    as Hbody.
  pose proof (Hstars _ _ Hright) as Hpad.
  rewrite Forall_forall in Hbody, Hpad.
  apply elem_of_app in Hb as [Hb|Hb]; auto.
Qed.

Lemma getOneLine_alphabet_witness :
  "-"%char = "*"%char ∨ "-"%char = "-"%char ∨ "-"%char ∈ bytes "ACGT".
Proof.
  apply (getOneLine_alphabet
           (mkRecord "q1" 1 (bytes "ACGT")
              [mkCigarOp CigarMatch 2; mkCigarOp CigarDeletion 1;
               mkCigarOp CigarMatch 2] 0) 7 (bytes "*AC-GT*") "-"%char).
  - reflexivity.
  - unfold bytes. simpl. rewrite !elem_of_cons. naive_solver.
Defined.

(** X13.  Round trip: a record whose only operator is a match over the
    whole query sequence expands to [Pos] placeholders, the query sequence
    itself, and placeholders up to the reference length. *)
Theorem getOneLine_whole_match (rec : Record_) (refLen : Z) :
  Cigar rec = [mkCigarOp CigarMatch (len (Seq rec))] →
  0 ≤ Pos rec → Pos rec + len (Seq rec) ≤ refLen → refLen ≤ max_int →
  getOneLine rec refLen
  = Returns (replicate (Z.to_nat (Pos rec)) "*"%char ++ Seq rec
             ++ replicate (Z.to_nat (refLen - Pos rec - len (Seq rec)))
                  "*"%char,
             None).
Proof.
  intros HC HPos Hroom HL.
  assert (Hlen : 0 ≤ len (Seq rec)) by (unfold len; lia).
  assert (Hfits : fits_reference refLen rec).
  { unfold fits_reference. rewrite HC.
    cbn [cigar_ok recognized consumes_query ref_span consumes_ref Type_ Len].
    rewrite !bool_decide_eq_true_2 by lia. repeat split; try done; lia. }
  rewrite getOneLine_layout by done.
  rewrite HC. cbn [emissions emission ref_span consumes_ref Type_ Len].
  unfold sub. rewrite app_nil_r, Z.add_0_r. cbn [Z.to_nat drop].
  unfold len. by rewrite Nat2Z.id, firstn_all.
Qed.

Lemma getOneLine_whole_match_witness :
  getOneLine (mkRecord "q1" 2 (bytes "ACG") [mkCigarOp CigarMatch 3] 0) 6
  = Returns (bytes "**ACG*", None).
Proof.
  apply (getOneLine_whole_match
           (mkRecord "q1" 2 (bytes "ACG") [mkCigarOp CigarMatch 3] 0) 6).
  - reflexivity.
  - simpl. lia.
  - vm_compute. discriminate.
  - vm_compute. discriminate.
Defined.

Lemma expand_loop_drop_HP (S : list byte) (ops : list CigarOp) :
  ∀ st, expand_loop getCigarOperationMap S (drop_HP ops) st
        = expand_loop getCigarOperationMap S ops st.
Proof.
  unfold drop_HP. induction ops as [|op ops IH]; intros [[arr q] r]; [done|].
  destruct (decide (Type_ op ≠ CigarHardClipped ∧ Type_ op ≠ CigarPadded))
    as [Hkeep|Hdrop].
  - rewrite filter_cons_True by done. cbn [expand_loop].
    destruct (call_op _ _ _ _ _ _) as [[[q1 r1] ext]|]; [|done]. cbn.
    apply IH.
  - rewrite filter_cons_False by done. rewrite IH. cbn [expand_loop].
    unfold call_op.
    destruct (Type_ op); try (destruct Hdrop; by split);
      cbn [CigarOpType_String]; rewrite ?lookup_H, ?lookup_P;
      unfold op_H, op_P; cbn; by rewrite app_nil_r.
Qed.

Lemma indel_loop_drop_HP (QNAME : string) (S : list byte)
    (ops : list CigarOp) :
  ∀ q r, indel_loop getCigarOperationMap QNAME S (drop_HP ops) q r
         = indel_loop getCigarOperationMap QNAME S ops q r.
Proof.
  unfold drop_HP. induction ops as [|op ops IH]; intros q r; [done|].
  destruct (decide (Type_ op ≠ CigarHardClipped ∧ Type_ op ≠ CigarPadded))
    as [Hkeep|Hdrop].
  - rewrite filter_cons_True by done. cbn [indel_loop].
    destruct (call_op _ _ _ _ _ _) as [[[q1 r1] ext]|];
      repeat case_bool_decide; try destruct (slice S _ _);
      unfold mbind, trace_bind, run, skip, emit; cbn; by rewrite ?IH.
  - rewrite filter_cons_False by done. rewrite IH. cbn [indel_loop].
    unfold call_op.
    destruct (Type_ op); try (destruct Hdrop; by split);
      cbn [CigarOpType_String]; rewrite ?lookup_H, ?lookup_P;
      unfold op_H, op_P;
      rewrite !bool_decide_eq_false_2 by done;
      unfold mbind, trace_bind, run, skip, emit; cbn;
      by destruct (indel_loop _ _ _ _ _ _).
Qed.

(** X14.  Hard clips and padding are no-ops: removing the H and P operators
    from a record changes neither what [getOneLine] returns nor what
    [getIndels] sends for it, whatever their lengths. *)
Theorem hard_clip_padding_ignored (rec : Record_) (refLen : Z) :
  getOneLine
    (mkRecord (Name rec) (Pos rec) (Seq rec) (drop_HP (Cigar rec)) (Flags rec))
    refLen
  = getOneLine rec refLen ∧
  getIndels_record
    (mkRecord (Name rec) (Pos rec) (Seq rec) (drop_HP (Cigar rec)) (Flags rec))
  = getIndels_record rec.
Proof.
  split.
  - unfold getOneLine. cbn [Pos Seq Cigar].
    case_bool_decide; [done|].
    destruct (make_filled _ _) as [arr|]; [|done]. cbn.
    by rewrite expand_loop_drop_HP.
  - unfold getIndels_record, getCigarOperationMapNoInsertions.
    cbn [Name Pos Seq Cigar]. by rewrite indel_loop_drop_HP.
Qed.

(** ** The reader and the worker *)

Lemma unmapped_flag (flags : Z) :
  Z.land (Z.shiftr flags 2) 1 = 1 ↔ Z.testbit flags 2 = true.
Proof.
  change 1 with (Z.ones 1) at 1. rewrite Z.land_ones by lia.
  change (2 ^ 1) with 2. rewrite Zmod_odd, <- Z.bit0_odd.
  rewrite Z.shiftr_spec by lia. change (0 + 2) with 2.
  by destruct (Z.testbit flags 2).
Qed.

Lemma getSamRecords_foldl (recs : list Record_) :
  ∀ chnl0,
    foldl (λ chnl rec,
             if bool_decide (Z.land (Z.shiftr (Flags rec) 2) 1 = 1) then chnl
             else chnl ++ [rec])
          chnl0 recs
    = chnl0 ++ filter (λ rec, Z.testbit (Flags rec) 2 = false) recs.
Proof.
  induction recs as [|rec recs IH]; intros chnl0; cbn [foldl].
  - by rewrite app_nil_r.
  - rewrite IH. case_bool_decide as Hflag.
    + apply unmapped_flag in Hflag.
      by rewrite filter_cons_False by (by rewrite Hflag).
    + rewrite filter_cons_True; [by rewrite <- app_assoc|].
      destruct (Z.testbit (Flags rec) 2) eqn:Hbit; [|done].
      destruct Hflag. by apply unmapped_flag.
Qed.

(** X15.  [getSamRecords] passes on, in the order read, exactly the records
    whose flag has bit 2 (value 4, unmapped) clear; the other bits of the
    flag and [Pos] play no part. *)
Theorem getSamRecords_mapped (recs : list Record_) :
  getSamRecords recs = filter (λ rec, Z.testbit (Flags rec) 2 = false) recs.
Proof. unfold getSamRecords. by rewrite getSamRecords_foldl. Qed.

Lemma getIndels_cons (rec : Record_) (recs : list Record_) :
  getIndels (rec :: recs)
  = match (getIndels_record rec).2 with
    | Returns _ =>
        ((getIndels_record rec).1 ++ (getIndels recs).1, (getIndels recs).2)
    | Panics => ((getIndels_record rec).1, Panics)
    end.
Proof. done. Qed.

Lemma getIndels_app (l1 l2 : list Record_) :
  getIndels (l1 ++ l2)
  = match (getIndels l1).2 with
    | Returns _ => ((getIndels l1).1 ++ (getIndels l2).1, (getIndels l2).2)
    | Panics => getIndels l1
    end.
Proof.
  induction l1 as [|rec l1 IH].
  - cbn. by destruct (getIndels l2).
  - rewrite <- app_comm_cons, !getIndels_cons, IH.
    destruct (getIndels_record rec) as [t1 [[]|]]; cbn; [|done].
    destruct (getIndels l1) as [t2 [[]|]]; cbn; [|done].
    by rewrite app_assoc.
Qed.

(** X16.  A panic ends the worker: when [getIndels] panics on a record, its
    sends are those for the records before it and those made for the record
    up to the panic; the records after it contribute nothing. *)
Theorem getIndels_panic_stops (pre : list Record_) (bad : Record_)
    (post : list Record_) :
  (getIndels pre).2 = Returns () →
  (getIndels_record bad).2 = Panics →
  getIndels (pre ++ bad :: post)
  = ((getIndels pre).1 ++ (getIndels_record bad).1, Panics).
Proof.
  intros Hpre Hbad. rewrite getIndels_app, Hpre, getIndels_cons, Hbad. done.
Qed.

Lemma getIndels_panic_stops_witness :
  getIndels
    ([mkRecord "q1" 3 (bytes "AC") [mkCigarOp CigarInsertion 2] 0]
       ++ mkRecord "q2" 0 (bytes "A") [mkCigarOp CigarBack 1] 0
       :: [mkRecord "q3" 5 (bytes "AC") [mkCigarOp CigarInsertion 2] 0])
  = ([to_cIns (mkIns "q1" 3 "AC")], Panics).
Proof.
  apply (getIndels_panic_stops
           [mkRecord "q1" 3 (bytes "AC") [mkCigarOp CigarInsertion 2] 0]
           (mkRecord "q2" 0 (bytes "A") [mkCigarOp CigarBack 1] 0)
           [mkRecord "q3" 5 (bytes "AC") [mkCigarOp CigarInsertion 2] 0]);
    reflexivity.
Defined.

Lemma getIndels_record_fits (rec : Record_) :
  fits_reference max_int rec →
  getIndels_record rec
  = (occurrences (Name rec) (Seq rec) (Cigar rec) 0 (Pos rec), Returns ()).
Proof.
  intros (HPos & Hok & HS & Hspan). unfold getIndels_record.
  rewrite bool_decide_eq_false_2 by lia. rewrite bind_skip.
  by apply indel_loop_fits.
Qed.

(** X17.  A worker that receives only mapped records whose operators fit
    their query sequences returns normally, sends no error, and sends the
    occurrences of the records one record after the other, in the order
    received. *)
Theorem getIndels_fits (cSR : list Record_) :
  Forall (fits_reference max_int) cSR →
  getIndels cSR
  = (concat ((λ rec, occurrences (Name rec) (Seq rec) (Cigar rec) 0 (Pos rec))
               <$> cSR),
     Returns ()).
Proof.
  induction 1 as [|rec cSR Hrec Hrest IH]; [done|].
  rewrite getIndels_cons, getIndels_record_fits by done.
  by rewrite IH.
Qed.

Lemma getIndels_fits_witness :
  getIndels
    [mkRecord "q1" 3 (bytes "ACG")
       [mkCigarOp CigarMatch 1; mkCigarOp CigarInsertion 2] 0;
     mkRecord "q2" 7 (bytes "A")
       [mkCigarOp CigarDeletion 3; mkCigarOp CigarMatch 1] 0]
  = ([to_cIns (mkIns "q1" 4 "CG"); to_cDel (mkDel "q2" 7 3)], Returns ()).
Proof.
  apply (getIndels_fits
           [mkRecord "q1" 3 (bytes "ACG")
              [mkCigarOp CigarMatch 1; mkCigarOp CigarInsertion 2] 0;
            mkRecord "q2" 7 (bytes "A")
              [mkCigarOp CigarDeletion 3; mkCigarOp CigarMatch 1] 0]).
  repeat constructor; simpl; try lia; vm_compute; discriminate.
Defined.

Lemma occurrences_counts (QNAME : string) (S : list byte)
    (ops : list CigarOp) :
  ∀ q r,
    length (insertions_sent (occurrences QNAME S ops q r))
    = length (ops_of CigarInsertion ops) ∧
    length (deletions_sent (occurrences QNAME S ops q r))
    = length (ops_of CigarDeletion ops).
Proof.
  unfold ops_of, insertions_sent, deletions_sent.
  induction ops as [|op ops IH]; intros q r; [done|].
  cbn [occurrences]. rewrite !omap_app, !length_app.
  destruct (IH (next_q q op) (next_r r op)) as [-> ->].
  rewrite !filter_cons.
  destruct (Type_ op); repeat case_decide; try done; cbn; lia.
Qed.

(** X18.  One occurrence per operator: such a worker sends as many
    insertion occurrences as its records have Insertion operators, and as
    many deletion occurrences as they have Deletion operators. *)
Theorem getIndels_counts (cSR : list Record_) :
  Forall (fits_reference max_int) cSR →
  length (insertions_sent (getIndels cSR).1)
  = length (ops_of CigarInsertion (concat (Cigar <$> cSR))) ∧
  length (deletions_sent (getIndels cSR).1)
  = length (ops_of CigarDeletion (concat (Cigar <$> cSR))).
Proof.
  unfold ops_of, insertions_sent, deletions_sent.
  induction 1 as [|rec cSR Hrec Hrest IH]; [done|].
  rewrite getIndels_cons, getIndels_record_fits by done.
  cbn [fst snd fmap list_fmap concat].
  rewrite !omap_app, !filter_app, !length_app.
  destruct IH as [-> ->].
  destruct (occurrences_counts (Name rec) (Seq rec) (Cigar rec) 0 (Pos rec))
    as [Hi Hd].
  unfold ops_of, insertions_sent, deletions_sent in Hi, Hd.
  by rewrite Hi, Hd.
Qed.

Lemma getIndels_counts_witness :
  length (insertions_sent
            (getIndels
               [mkRecord "q1" 3 (bytes "ACG")
                  [mkCigarOp CigarMatch 1; mkCigarOp CigarInsertion 2] 0]).1)
  = 1%nat ∧
  length (deletions_sent
            (getIndels
               [mkRecord "q1" 3 (bytes "ACG")
                  [mkCigarOp CigarMatch 1; mkCigarOp CigarInsertion 2] 0]).1)
  = 0%nat.
Proof.
  apply (getIndels_counts
           [mkRecord "q1" 3 (bytes "ACG")
              [mkCigarOp CigarMatch 1; mkCigarOp CigarInsertion 2] 0]).
  repeat constructor; simpl; try lia; vm_compute; discriminate.
Defined.

(** X19.  The only error a worker sends is "unmapped read", and it sends it
    only when it has received a record with a negative [Pos]; a bad
    operator or a slice out of range never becomes an error. *)
Theorem getIndels_errors (cSR : list Record_) (e : string) :
  to_cErr e ∈ (getIndels cSR).1 →
  e = "unmapped read"%string ∧ Exists (λ rec, Pos rec < 0) cSR.
Proof.
  induction cSR as [|rec cSR IH]; [by intros ?%elem_of_nil|].
  rewrite getIndels_cons. intros Hin.
  assert (Hrec : to_cErr e ∈ (getIndels_record rec).1 →
                 e = "unmapped read"%string ∧ Pos rec < 0).
  { unfold getIndels_record.
    pose proof (indel_loop_no_error getCigarOperationMapNoInsertions
                  (Name rec) (Seq rec) (Cigar rec) 0 (Pos rec) e) as Hno.
    case_bool_decide; unfold mbind, trace_bind, skip, emit; cbn;
      destruct (indel_loop _ _ _ _ _ _) as [t [[]|]]; cbn in *;
      rewrite ?elem_of_cons; naive_solver. }
  destruct (getIndels_record rec) as [t1 [[]|]]; cbn in *.
  - apply elem_of_app in Hin as [Hin|Hin].
    + destruct (Hrec Hin). split; [done | by left].
    + destruct (IH Hin). split; [done | by right].
  - destruct (Hrec Hin). split; [done | by left].
Qed.

Lemma getIndels_errors_witness :
  "unmapped read"%string = "unmapped read"%string ∧
  Exists (λ rec, Pos rec < 0)
    [mkRecord "q1" (-1) (bytes "AC") [mkCigarOp CigarInsertion 2] 0].
Proof.
  apply (getIndels_errors
           [mkRecord "q1" (-1) (bytes "AC") [mkCigarOp CigarInsertion 2] 0]
           "unmapped read"%string).
  vm_compute. apply list_elem_of_here.
Defined.

(** ** More on the normalization passes *)

Lemma swapInNs_fmap (seq : list byte) :
  swapInNs seq
  = (λ L, if bool_decide (L = "*"%char) then "N"%char else L) <$> seq.
Proof.
  destruct (swapInNs_lookup seq) as [Hlen HN].
  apply list_eq. intros i. rewrite list_lookup_fmap.
  destruct (seq !! i) as [x|] eqn:Hx.
  - by rewrite (HN i x Hx).
  - apply lookup_ge_None. rewrite Hlen. by apply lookup_ge_None.
Qed.

(** X20.  [swapInNs] is the bytewise substitution of 'N' for '*': no
    placeholder is left in its result, and a second pass changes nothing. *)
Theorem swapInNs_total (seq : list byte) :
  swapInNs seq
  = ((λ L, if bool_decide (L = "*"%char) then "N"%char else L) <$> seq) ∧
  ("*"%char ∉ swapInNs seq) ∧
  swapInNs (swapInNs seq) = swapInNs seq.
Proof.
  split; [apply swapInNs_fmap|]. split.
  - rewrite swapInNs_fmap. intros (x & Hx & _)%list_elem_of_fmap.
    by case_bool_decide.
  - rewrite !swapInNs_fmap, <- list_fmap_compose.
    apply list_fmap_ext. intros _ x _. cbn.
    by repeat case_bool_decide.
Qed.

Lemma letter_scan_none (seq : list byte) :
  Forall (λ c, ¬ IsLetter c) seq → letter_scan seq = (true, 0, 0).
Proof. intros Hnone. unfold letter_scan. by apply scan_no_letter. Qed.

(** X21.  A sequence without a letter: [swapInGapsNs] takes both indices as
    0, so it leaves the byte at index 0 as it is, a placeholder too, and
    turns every placeholder after it into a gap. *)
Theorem swapInGapsNs_no_letter (seq : list byte) :
  Forall (λ c, ¬ IsLetter c) seq →
  swapInGapsNs seq !! 0%nat = seq !! 0%nat ∧
  ∀ i : nat, (0 < i)%nat → seq !! i = Some "*"%char →
    swapInGapsNs seq !! i = Some "-"%char.
Proof.
  intros Hnone. destruct (swapInGapsNs_lookup seq) as [Hlen HG].
  rewrite (letter_scan_none seq Hnone) in HG. cbn [fst snd] in HG. split.
  - destruct (seq !! 0%nat) as [x|] eqn:Hx.
    + rewrite (HG 0%nat x Hx). unfold swapInGapsNs_byte.
      by repeat case_bool_decide; try lia.
    + apply lookup_ge_None. rewrite Hlen. by apply lookup_ge_None.
  - intros i Hi Hstar. rewrite (HG i _ Hstar). unfold swapInGapsNs_byte.
    by repeat case_bool_decide; try lia.
Qed.

Lemma swapInGapsNs_no_letter_witness :
  swapInGapsNs (bytes "**-*") !! 0%nat = Some "*"%char ∧
  swapInGapsNs (bytes "**-*") !! 3%nat = Some "-"%char.
Proof.
  destruct (swapInGapsNs_no_letter (bytes "**-*")) as [H0 Hrest].
  - repeat constructor; vm_compute; exact (λ x, x).
  - split; [exact H0|]. apply Hrest; [lia | reflexivity].
Defined.

Lemma first_letter_exists (seq : list byte) :
  Exists (λ c, IsLetter c) seq →
  ∃ (f : nat) (a : byte),
    seq !! f = Some a ∧ IsLetter a ∧
    ∀ (j : nat) c, (j < f)%nat → seq !! j = Some c → ¬ IsLetter c.
Proof.
  induction seq as [|x seq IH]; intros Hex; [by apply Exists_nil in Hex|].
  destruct (decide (IsLetter x)) as [Hx|Hx].
  - exists 0%nat, x. repeat split; [done|]. intros j c Hj. lia.
  - apply Exists_cons in Hex as [Hex|Hex]; [done|].
    destruct (IH Hex) as (f & a & Hf & Ha & Hbefore).
    exists (S f), a. repeat split; [done..|].
    intros [|j] c Hj Hc; [by injection Hc as <-|].
    apply (Hbefore j c); [lia | done].
Qed.

Lemma last_letter_exists (seq : list byte) :
  Exists (λ c, IsLetter c) seq →
  ∃ (l : nat) (b : byte),
    seq !! l = Some b ∧ IsLetter b ∧
    ∀ (j : nat) c, (l < j)%nat → seq !! j = Some c → ¬ IsLetter c.
Proof.
  induction seq as [|x seq IH]; intros Hex; [by apply Exists_nil in Hex|].
  destruct (decide (Exists (λ c, IsLetter c) seq)) as [Htail|Htail].
  - destruct (IH Htail) as (l & b & Hl & Hb & Hafter).
    exists (S l), b. repeat split; [done..|].
    intros [|j] c Hj Hc; [lia|]. apply (Hafter j c); [lia | done].
  - apply Exists_cons in Hex as [Hx|Hex]; [|done].
    exists 0%nat, x. repeat split; [done..|].
    intros [|j] c Hj Hc; [lia|]. intros HLc. apply Htail.
    apply Exists_exists. exists c. split; [|done].
    apply list_elem_of_lookup. by exists j.
Qed.

Lemma swapInGapsNs_letter_no_star (seq : list byte) :
  Exists (λ c, IsLetter c) seq → "*"%char ∉ swapInGapsNs seq.
Proof.
  intros Hex Hin.
  destruct (first_letter_exists seq Hex) as (f & a & Hf & Ha & Hbefore).
  destruct (last_letter_exists seq Hex) as (l & b & Hl & Hb & Hafter).
  destruct (letter_scan_first_last seq f l a b) as [Hfi Hli]; try done.
  destruct (swapInGapsNs_lookup seq) as [Hlen HG].
  apply list_elem_of_lookup in Hin as [i Hi].
  destruct (seq !! i) as [x|] eqn:Hx.
  - rewrite (HG i x Hx), Hfi, Hli in Hi. injection Hi as Hi.
    unfold swapInGapsNs_byte in Hi.
    repeat case_bool_decide; try done; subst x.
    assert (i = f ∨ i = l) as [-> | ->] by lia.
    + rewrite Hf in Hx. by injection Hx as ->.
    + rewrite Hl in Hx. by injection Hx as ->.
  - apply lookup_ge_None in Hx. apply lookup_lt_Some in Hi. lia.
Qed.

(** X22.  When the sequence holds a letter, [swapInGapsNs] leaves no
    placeholder: every '*' has become 'N' or '-'. *)
Theorem swapInGapsNs_no_placeholder (seq : list byte) :
  Exists (λ c, IsLetter c) seq → "*"%char ∉ swapInGapsNs seq.
Proof. apply swapInGapsNs_letter_no_star. Qed.

Lemma swapInGapsNs_no_placeholder_witness :
  "*"%char ∉ swapInGapsNs (bytes "**A*C*").
Proof.
  apply (swapInGapsNs_no_placeholder (bytes "**A*C*")).
  apply Exists_cons_tl, Exists_cons_tl, Exists_cons_hd. exact I.
Defined.

Lemma swapInGapsNs_byte_letter fi li i (x : byte) :
  IsLetter (swapInGapsNs_byte fi li i x) →
  IsLetter x ∨ (x = "*"%char ∧ fi < i < li).
Proof.
  unfold swapInGapsNs_byte. repeat case_bool_decide; try done; auto.
  intros _. right. split; [done | lia].
Qed.

Lemma swapInGapsNs_byte_idemp fi li i (x : byte) :
  swapInGapsNs_byte fi li i (swapInGapsNs_byte fi li i x)
  = swapInGapsNs_byte fi li i x.
Proof.
  unfold swapInGapsNs_byte. by repeat case_bool_decide.
Qed.

(** The first loop finds the same indices after the pass as before it. *)
Lemma letter_scan_stable (seq : list byte) :
  (letter_scan (swapInGapsNs seq)).1.2 = (letter_scan seq).1.2 ∧
  (letter_scan (swapInGapsNs seq)).2 = (letter_scan seq).2.
Proof.
  destruct (swapInGapsNs_lookup seq) as [Hlen HG].
  assert (Hback : ∀ (j : nat) c, swapInGapsNs seq !! j = Some c →
            ∃ x, seq !! j = Some x ∧
                 c = swapInGapsNs_byte (letter_scan seq).1.2
                       (letter_scan seq).2 (Z.of_nat j) x).
  { intros j c Hc. destruct (seq !! j) as [x|] eqn:Hx.
    - exists x. split; [done|]. rewrite (HG j x Hx) in Hc. by injection Hc.
    - apply lookup_ge_None in Hx. apply lookup_lt_Some in Hc. lia. }
  destruct (decide (Exists (λ c, IsLetter c) seq)) as [Hex|Hnone].
  - destruct (first_letter_exists seq Hex) as (f & a & Hf & Ha & Hbefore).
    destruct (last_letter_exists seq Hex) as (l & b & Hl & Hb & Hafter).
    destruct (letter_scan_first_last seq f l a b) as [Hfi Hli]; try done.
    rewrite Hfi, Hli in *.
    assert (Hkeep : ∀ (i : nat) (x : byte), seq !! i = Some x → IsLetter x →
              swapInGapsNs seq !! i = Some x).
    { intros i x Hx HLx. rewrite (HG i x Hx). unfold swapInGapsNs_byte.
      rewrite bool_decide_eq_false_2; [done|]. by intros ->. }
    apply (letter_scan_first_last (swapInGapsNs seq) f l a b); auto.
    + intros j c Hj Hc HLc. destruct (Hback j c Hc) as (x & Hx & ->).
      apply swapInGapsNs_byte_letter in HLc as [HLx|[_ ?]]; [|lia].
      by apply (Hbefore j x).
    + intros j c Hj Hc HLc. destruct (Hback j c Hc) as (x & Hx & ->).
      apply swapInGapsNs_byte_letter in HLc as [HLx|[_ ?]]; [|lia].
      by apply (Hafter j x).
  - apply not_Exists_Forall in Hnone; [|intros c; apply _].
    rewrite (letter_scan_none seq) in * by done. cbn [fst snd] in *.
    rewrite letter_scan_none; [done|].
    apply Forall_lookup. intros j c Hc HLc.
    destruct (Hback j c Hc) as (x & Hx & ->).
    apply swapInGapsNs_byte_letter in HLc as [HLx|[_ ?]]; [|lia].
    rewrite Forall_lookup in Hnone. by apply (Hnone j x).
Qed.

(** X23.  [swapInGapsNs] is idempotent: a second pass over its result
    changes nothing, with or without a letter in the sequence. *)
Theorem swapInGapsNs_idempotent (seq : list byte) :
  swapInGapsNs (swapInGapsNs seq) = swapInGapsNs seq.
Proof.
  destruct (swapInGapsNs_lookup seq) as [Hlen HG].
  destruct (swapInGapsNs_lookup (swapInGapsNs seq)) as [Hlen2 HG2].
  destruct (letter_scan_stable seq) as [Hfi Hli].
  apply list_eq. intros i.
  destruct (seq !! i) as [x|] eqn:Hx.
  - rewrite (HG2 i _ (HG i x Hx)), Hfi, Hli, (HG i x Hx).
    by rewrite swapInGapsNs_byte_idemp.
  - apply lookup_ge_None in Hx.
    rewrite (proj2 (lookup_ge_None _ i)) by lia.
    by rewrite (proj2 (lookup_ge_None _ i)) by lia.
Qed.

(** ** The aggregators *)

Section populateMap_entries.
Context `{Countable K} {Occ : Type}.
Variable query : Occ → string.
Variable start : Occ → Z.
Variable key : Occ → K.

Lemma populate_step_entry (m : gmap Z (gmap K (list string))) (occ : Occ)
    (k : Z) (v : K) :
  entry (populate_step query start key m occ) k v
  = if decide (start occ = k ∧ key occ = v)
    then Some (default [] (entry m k v) ++ [query occ])
    else entry m k v.
Proof.
  unfold entry, populate_step.
  destruct (decide (start occ = k)) as [<-|Hk].
  - destruct (m !! start occ) as [inner|] eqn:Hm; cbn.
    + destruct (decide (key occ = v)) as [<-|Hv].
      * rewrite decide_True by done.
        destruct (inner !! key occ) as [names|] eqn:Hi;
          rewrite lookup_insert_eq; cbn; by rewrite lookup_insert_eq.
      * rewrite decide_False by naive_solver.
        destruct (inner !! key occ) as [names|] eqn:Hi;
          rewrite lookup_insert_eq; cbn; by rewrite lookup_insert_ne.
    + rewrite lookup_insert_eq. cbn.
      destruct (decide (key occ = v)) as [<-|Hv].
      * rewrite decide_True by done. by rewrite lookup_insert_eq.
      * rewrite decide_False by naive_solver.
        by rewrite lookup_insert_ne, lookup_empty.
  - rewrite decide_False by naive_solver.
    destruct (m !! start occ) as [inner|] eqn:Hm;
      [destruct (inner !! key occ)|]; by rewrite lookup_insert_ne.
Qed.

Lemma populate_foldl_entry (occs : list Occ) (k : Z) (v : K) :
  ∀ m : gmap Z (gmap K (list string)),
    entry (foldl (populate_step query start key) m occs) k v
    = match names_at query start key occs k v with
      | [] => entry m k v
      | names => Some (default [] (entry m k v) ++ names)
      end.
Proof.
  unfold names_at. induction occs as [|occ occs IH]; intros m; [done|].
  cbn [foldl]. rewrite IH, populate_step_entry, filter_cons.
  destruct (decide (start occ = k ∧ key occ = v)) as [Hocc|Hocc]; [|done].
  rewrite fmap_cons. cbn [default from_option id].
  destruct (query <$> filter _ occs) as [|n names]; [done|].
  by rewrite <- app_assoc.
Qed.

(** The entry at [(k, v)] after all occurrences: the queries of the
    occurrences with that key, in the order of arrival, and no entry when
    there is none. *)
Lemma populateMap_entry (occs : list Occ) (k : Z) (v : K)
    (names : list string) :
  entry (populateMap query start key occs) k v = Some names
  ↔ names ≠ [] ∧ names = names_at query start key occs k v.
Proof.
  unfold populateMap. rewrite populate_foldl_entry.
  unfold entry at 1 2. rewrite lookup_empty. cbn.
  destruct (names_at _ _ _ _ _ _) as [|n l]; [naive_solver|].
  split; [by intros [= <-] | by intros [_ ->]].
Qed.

Lemma populate_step_keys (m : gmap Z (gmap K (list string))) (occ : Occ)
    (k : Z) :
  is_Some (populate_step query start key m occ !! k)
  ↔ start occ = k ∨ is_Some (m !! k).
Proof.
  unfold populate_step.
  destruct (m !! start occ) as [inner|] eqn:Hm;
    [destruct (inner !! key occ)|]; by rewrite lookup_insert_is_Some'.
Qed.

Lemma populateMap_keys (occs : list Occ) (k : Z) :
  is_Some (populateMap query start key occs !! k)
  ↔ Exists (λ occ, start occ = k) occs.
Proof.
  unfold populateMap.
  assert (Hgen : ∀ m : gmap Z (gmap K (list string)),
            is_Some (foldl (populate_step query start key) m occs !! k)
            ↔ is_Some (m !! k) ∨ Exists (λ occ, start occ = k) occs).
  { induction occs as [|occ occs IH]; intros m; cbn [foldl].
    - rewrite Exists_nil. naive_solver.
    - rewrite IH, populate_step_keys, Exists_cons. naive_solver. }
  rewrite Hgen, lookup_empty. split; [|by right].
  intros [[? [=]]|?]; done.
Qed.

Lemma listed_entry (m : gmap Z (gmap K (list string))) (threshold : Z)
    (row : Z * K * list string) :
  listed m threshold row
  ↔ entry m row.1.1 row.1.2 = Some row.2 ∧ threshold ≤ len row.2.
Proof.
  unfold listed, entry. destruct (m !! row.1.1) as [inner|]; cbn.
  - split.
    + by intros [(inner' & [= <-] & Hv) Hlen].
    + intros [Hv Hlen]. split; [by exists inner | done].
  - split; [by intros [(inner' & [=] & _) _] | by intros [[=] _]].
Qed.
End populateMap_entries.

Lemma sum_map_to_list_lookup `{Countable K} {V} (f : K * V → nat)
    (m : gmap K V) (i : K) (x : V) :
  m !! i = Some x →
  sum_list_with f (map_to_list m)
  = (f (i, x) + sum_list_with f (map_to_list (delete i m)))%nat.
Proof. intros Hi. by rewrite <- (map_to_list_delete m i x Hi). Qed.

Lemma sum_map_to_list_insert `{Countable K} {V} (f : K * V → nat)
    (m : gmap K V) (i : K) (x : V) :
  sum_list_with f (map_to_list (<[i := x]> m))
  = (f (i, x) + sum_list_with f (map_to_list (delete i m)))%nat.
Proof.
  rewrite <- insert_delete_eq.
  by rewrite map_to_list_insert by apply lookup_delete_eq.
Qed.

Section populateMap_count.
Context `{Countable K} {Occ : Type}.
Variable query : Occ → string.
Variable start : Occ → Z.
Variable key : Occ → K.

Lemma populate_step_count (m : gmap Z (gmap K (list string))) (occ : Occ) :
  count_names (populate_step query start key m occ) = S (count_names m).
Proof.
  unfold count_names, populate_step.
  destruct (m !! start occ) as [inner|] eqn:Hm.
  - rewrite (sum_map_to_list_lookup _ m (start occ) inner Hm). cbn [snd].
    destruct (inner !! key occ) as [names|] eqn:Hi;
      rewrite sum_map_to_list_insert; cbn [snd];
      rewrite sum_map_to_list_insert; cbn [snd].
    + rewrite (sum_map_to_list_lookup _ inner (key occ) names Hi). cbn [snd].
      rewrite length_app. cbn. lia.
    + rewrite (delete_id inner) by done. cbn. lia.
  - rewrite sum_map_to_list_insert. cbn [snd].
    rewrite sum_map_to_list_insert. cbn [snd].
    rewrite delete_empty, map_to_list_empty, (delete_id m) by done. cbn. lia.
Qed.

Lemma populateMap_count (occs : list Occ) :
  count_names (populateMap query start key occs) = length occs.
Proof.
  unfold populateMap.
  assert (Hgen : ∀ m : gmap Z (gmap K (list string)),
            count_names (foldl (populate_step query start key) m occs)
            = (count_names m + length occs)%nat).
  { induction occs as [|occ occs IH]; intros m; cbn [foldl length]; [lia|].
    rewrite IH, populate_step_count. lia. }
  rewrite Hgen. unfold count_names. by rewrite map_to_list_empty.
Qed.
End populateMap_count.

(** X24.  What the aggregators build: after the occurrences of the channel,
    a map has an entry at [(start, key)] exactly when an occurrence had that
    start and that inserted sequence or length, and the entry lists the
    queries of those occurrences in the order of arrival, a query as many
    times as it occurred there. *)
Theorem aggregated_entries :
  (∀ (cIns : list insOccurrence) (k : Z) (v : string) (names : list string),
     entry (populateInsMap cIns) k v = Some names
     ↔ names ≠ [] ∧
       names = ins_query
                 <$> filter (λ ins, ins_start ins = k ∧ ins_seq ins = v) cIns) ∧
  (∀ (cDel : list delOccurrence) (k v : Z) (names : list string),
     entry (populateDelMap cDel) k v = Some names
     ↔ names ≠ [] ∧
       names = del_query
                 <$> filter (λ del, del_start del = k ∧ del_length del = v)
                       cDel).
Proof.
  split.
  - intros cIns k v names.
    apply (populateMap_entry ins_query ins_start ins_seq).
  - intros cDel k v names.
    apply (populateMap_entry del_query del_start del_length).
Qed.

(** X25.  Nothing is lost or merged: the names a map holds, over all its
    entries, are as many as the occurrences received. *)
Theorem aggregated_count :
  (∀ cIns : list insOccurrence,
     count_names (populateInsMap cIns) = length cIns) ∧
  (∀ cDel : list delOccurrence,
     count_names (populateDelMap cDel) = length cDel).
Proof.
  split.
  - intros cIns. apply (populateMap_count ins_query ins_start ins_seq).
  - intros cDel. apply (populateMap_count del_query del_start del_length).
Qed.

Section report_of_occurrences.
Context `{Countable K} {Occ : Type}.
Variable query : Occ → string.
Variable start : Occ → Z.
Variable key : Occ → K.
Variable header : string.
Variable show : K → string.

Lemma writeMap_populateMap (occs : list Occ) (threshold : Z)
    (written : list string) :
  Forall (λ occ, is_int (start occ + 1)) occs →
  writeMap header show (populateMap query start key occs) threshold written →
  ∃ rows : list (Z * K * list string),
    written = header :: (row_line show <$> rows) ∧
    NoDup rows ∧ Sorted Z.le (rows.*1.*1) ∧
    ∀ row, row ∈ rows
           ↔ row.2 ≠ [] ∧
             row.2 = names_at query start key occs row.1.1 row.1.2 ∧
             threshold ≤ len row.2.
Proof.
  intros Hint Hw.
  apply writeMap_listed in Hw as (rows & -> & Hel & Hnd & Hsorted).
  - exists rows. split; [done|]. split; [done|]. split; [done|].
    intros row. rewrite Hel, listed_entry, populateMap_entry. tauto.
  - intros k Hk%populateMap_keys. apply Exists_exists in Hk as (occ & Hocc & <-).
    rewrite Forall_forall in Hint. by apply Hint.
Qed.
End report_of_occurrences.

(** X26.  From the occurrences to the report: the insertion report written
    for the map built from the occurrences has, after the header, one line
    for every (start, inserted sequence) that at least [threshold]
    occurrences, and at least one, had; its sample column joins the queries
    of these occurrences in the order of arrival; the lines come in
    ascending order of the start.  The deletion report does the same with
    the deletion length. *)
Theorem report_of_occurrences :
  (∀ (cIns : list insOccurrence) (threshold : Z) (written : list string),
     Forall (λ ins, is_int (ins_start ins + 1)) cIns →
     writeInsMap (populateInsMap cIns) threshold written →
     ∃ rows : list (Z * string * list string),
       written = ins_header :: (row_line (λ v, v) <$> rows) ∧
       NoDup rows ∧ Sorted Z.le (rows.*1.*1) ∧
       ∀ row, row ∈ rows
              ↔ row.2 ≠ [] ∧
                row.2 = ins_query
                          <$> filter (λ ins, ins_start ins = row.1.1 ∧
                                             ins_seq ins = row.1.2) cIns ∧
                threshold ≤ len row.2) ∧
  (∀ (cDel : list delOccurrence) (threshold : Z) (written : list string),
     Forall (λ del, is_int (del_start del + 1)) cDel →
     writeDelMap (populateDelMap cDel) threshold written →
     ∃ rows : list (Z * Z * list string),
       written = del_header :: (row_line Itoa <$> rows) ∧
       NoDup rows ∧ Sorted Z.le (rows.*1.*1) ∧
       ∀ row, row ∈ rows
              ↔ row.2 ≠ [] ∧
                row.2 = del_query
                          <$> filter (λ del, del_start del = row.1.1 ∧
                                             del_length del = row.1.2) cDel ∧
                threshold ≤ len row.2).
Proof.
  split.
  - intros cIns threshold written.
    apply (writeMap_populateMap ins_query ins_start ins_seq).
  - intros cDel threshold written.
    apply (writeMap_populateMap del_query del_start del_length).
Qed.

Lemma report_of_occurrences_witness :
  ∃ rows : list (Z * string * list string),
    writeInsMap_run
      (populateInsMap [mkIns "q1" 4 "CG"; mkIns "q2" 9 "A"; mkIns "q3" 4 "CG"])
      2
    = ins_header :: (row_line (λ v, v) <$> rows) ∧
    NoDup rows ∧ Sorted Z.le (rows.*1.*1) ∧
    ∀ row, row ∈ rows
           ↔ row.2 ≠ [] ∧
             row.2 = ins_query
                       <$> filter (λ ins, ins_start ins = row.1.1 ∧
                                          ins_seq ins = row.1.2)
                             [mkIns "q1" 4 "CG"; mkIns "q2" 9 "A";
                              mkIns "q3" 4 "CG"] ∧
             2 ≤ len row.2.
Proof.
  apply (proj1 report_of_occurrences
           [mkIns "q1" 4 "CG"; mkIns "q2" 9 "A"; mkIns "q3" 4 "CG"] 2).
  - repeat constructor; vm_compute; discriminate.
  - apply (writeMap_run_spec ins_header (λ v, v)).
Defined.

(** ** More on the partitioner *)

Lemma groupSamRecords_cover (recs : list Record_) :
  concat (groupSamRecords recs) = recs.
Proof.
  unfold groupSamRecords.
  rewrite concat_app, concat_cons, concat_nil, app_nil_r.
  by rewrite group_steps_concat.
Qed.

(** X27.  The blocks [groupSamRecords] sends, put end to end, are the
    stream: no record is lost, repeated or moved, sorted input or not. *)
Theorem groupSamRecords_concat (recs : list Record_) :
  concat (groupSamRecords recs) = recs.
Proof. apply groupSamRecords_cover. Qed.

Lemma groupSamRecords_inv (recs : list Record_) :
  recs ≠ [] →
  Forall one_query (groupSamRecords recs) ∧
  name_changes (groupSamRecords recs).
Proof.
  unfold groupSamRecords. destruct recs as [|rec recs]; [done|]. intros _.
  cbn [foldl].
  pose proof (group_steps_inv recs _ (group_step_first rec))
    as (_ & Hne & Hsame & Hsent & Hch & Hlast).
  split.
  - apply Forall_app. split; [done|]. repeat constructor; [done|].
    by eexists.
  - by apply name_changes_snoc.
Qed.

(** X28.  For a stream with at least one record, every block sent is the
    block of one query (not empty, one name), and a block ends exactly
    where the next record has another name: the records of two consecutive
    blocks differ in name. *)
Theorem groupSamRecords_one_query (recs : list Record_) :
  recs ≠ [] →
  Forall one_query (groupSamRecords recs) ∧
  name_changes (groupSamRecords recs).
Proof. apply groupSamRecords_inv. Qed.

Lemma groupSamRecords_one_query_witness :
  Forall one_query
    (groupSamRecords
       [mkRecord "q1" 0 [] [] 0; mkRecord "q1" 5 [] [] 0;
        mkRecord "q2" 0 [] [] 0]) ∧
  name_changes
    (groupSamRecords
       [mkRecord "q1" 0 [] [] 0; mkRecord "q1" 5 [] [] 0;
        mkRecord "q2" 0 [] [] 0]).
Proof.
  apply (groupSamRecords_one_query
           [mkRecord "q1" 0 [] [] 0; mkRecord "q1" 5 [] [] 0;
            mkRecord "q2" 0 [] [] 0]).
  discriminate.
Defined.

Lemma name_changes_adjacent (B1 : list (list Record_)) (A D : list Record_)
    (rest : list (list Record_)) :
  name_changes (B1 ++ A :: D :: rest) → other_query A D.
Proof.
  induction B1 as [|B B1 IH]; [by intros [? _]|].
  intros [_ Hch]. by apply IH.
Qed.

(** X29.  On a stream grouped by query name, every name gets one block: the
    records of two different blocks never have the same name. *)
Theorem groupSamRecords_grouped (recs : list Record_)
    (B1 : list (list Record_)) (A : list Record_) (B2 : list (list Record_))
    (C : list Record_) (B3 : list (list Record_)) :
  grouped recs →
  groupSamRecords recs = B1 ++ A :: B2 ++ C :: B3 →
  other_query A C.
Proof.
  intros Hgrouped Hblocks.
  assert (Hne : recs ≠ []).
  { intros ->. apply (f_equal length) in Hblocks.
    rewrite length_app in Hblocks. cbn in Hblocks.
    rewrite length_app in Hblocks. cbn in Hblocks. lia. }
  destruct (groupSamRecords_inv recs Hne) as [Hone Hch].
  pose proof (groupSamRecords_cover recs) as Hcat.
  rewrite Hblocks in Hone, Hch, Hcat.
  destruct B2 as [|D B2]; [by apply (name_changes_adjacent B1 A C B3)|].
  intros a c Ha Hc Hac.
  pose proof (name_changes_adjacent B1 A D (B2 ++ C :: B3) Hch) as HAD.
  assert (HD : one_query D).
  { rewrite Forall_forall in Hone. apply Hone.
    apply elem_of_app. right. apply elem_of_cons. right.
    apply elem_of_app. left. by left. }
  destruct HD as [HDne _]. destruct D as [|d D]; [done|].
  apply (HAD a d Ha); [by left|]. symmetry.
  apply list_elem_of_split in Ha as (A1 & A2 & ->).
  apply list_elem_of_split in Hc as (C1 & C2 & ->).
  apply (Hgrouped (concat B1 ++ A1) a A2 d (D ++ concat B2 ++ C1) c
           (C2 ++ concat B3)); [|done].
  rewrite <- Hcat. rewrite !concat_app. cbn [concat].
  rewrite !concat_app. cbn [concat]. by rewrite <- !app_assoc.
Qed.

Lemma groupSamRecords_grouped_witness :
  other_query [mkRecord "q1" 0 [] [] 0; mkRecord "q1" 5 [] [] 0]
              [mkRecord "q3" 0 [] [] 0].
Proof.
  apply (groupSamRecords_grouped
           [mkRecord "q1" 0 [] [] 0; mkRecord "q1" 5 [] [] 0;
            mkRecord "q2" 0 [] [] 0; mkRecord "q3" 0 [] [] 0]
           [] [mkRecord "q1" 0 [] [] 0; mkRecord "q1" 5 [] [] 0]
           [[mkRecord "q2" 0 [] [] 0]] [mkRecord "q3" 0 [] [] 0] []).
  - intros l1 r1 l2 r2 l3 r3 l4 Hsplit H13.
    destruct l1 as [|x1 [|x2 [|x3 [|x4 l1]]]]; simplify_eq/=;
      repeat (match goal with
              | H : _ = ?l ++ _ :: _ |- _ =>
                  destruct l as [|? l]; simplify_eq/=
              end); try done;
      by repeat (match goal with
                 | H : [] = ?l ++ _ :: _ |- _ => destruct l; simplify_eq/=
                 end).
  - reflexivity.
Defined.

(** ** More on the report writers *)

Section writeMap_threshold.
Context `{Countable K}.
Variable header : string.
Variable show : K → string.

Lemma writeMap_threshold_mono (m : gmap Z (gmap K (list string)))
    (t1 t2 : Z) (w1 w2 : list string) (line : string) :
  t1 ≤ t2 → (∀ k, is_Some (m !! k) → is_int (k + 1)) →
  writeMap header show m t1 w1 → writeMap header show m t2 w2 →
  line ∈ w2 → line ∈ w1.
Proof.
  intros Ht Hint Hw1 Hw2.
  apply writeMap_listed in Hw1 as (rows1 & -> & Hel1 & _); [|done].
  apply writeMap_listed in Hw2 as (rows2 & -> & Hel2 & _); [|done].
  rewrite !elem_of_cons, !list_elem_of_fmap.
  intros [->|(row & -> & Hrow)]; [by left|]. right.
  exists row. split; [done|]. apply Hel1. apply Hel2 in Hrow.
  destruct Hrow as [Hentry Hlen]. split; [done | lia].
Qed.
End writeMap_threshold.

(** X30.  Raising the threshold only removes lines: every line a writer
    writes for a map at a threshold, it also writes for that map at any
    lower threshold, whatever the order in which the maps are visited. *)
Theorem report_threshold_mono :
  (∀ (insmap : gmap Z (gmap string (list string))) (t1 t2 : Z)
     (w1 w2 : list string) (line : string),
     t1 ≤ t2 → (∀ k, is_Some (insmap !! k) → is_int (k + 1)) →
     writeInsMap insmap t1 w1 → writeInsMap insmap t2 w2 →
     line ∈ w2 → line ∈ w1) ∧
  (∀ (delmap : gmap Z (gmap Z (list string))) (t1 t2 : Z)
     (w1 w2 : list string) (line : string),
     t1 ≤ t2 → (∀ k, is_Some (delmap !! k) → is_int (k + 1)) →
     writeDelMap delmap t1 w1 → writeDelMap delmap t2 w2 →
     line ∈ w2 → line ∈ w1).
Proof.
  split.
  - intros insmap t1 t2 w1 w2 line. apply writeMap_threshold_mono.
  - intros delmap t1 t2 w1 w2 line. apply writeMap_threshold_mono.
Qed.

Lemma report_threshold_mono_witness :
  ins_header ∈ writeInsMap_run {[5 := {["AC"%string := ["s1"; "s2"]%string]}]} 1.
Proof.
  apply (proj1 report_threshold_mono
           {[5 := {["AC"%string := ["s1"; "s2"]%string]}]} 1 3
           (writeInsMap_run {[5 := {["AC"%string := ["s1"; "s2"]%string]}]} 1)
           (writeInsMap_run {[5 := {["AC"%string := ["s1"; "s2"]%string]}]} 3)
           ins_header).
  - lia.
  - intros k [inner [<- _]%lookup_singleton_Some].
    unfold is_int, min_int, max_int. lia.
  - apply (writeMap_run_spec ins_header (λ v, v)).
  - apply (writeMap_run_spec ins_header (λ v, v)).
  - vm_compute. apply list_elem_of_here.
Defined.
